(** * nflog: the replicated notification log of alertmanager

    A shallow embedding of [src/nflog/nflog.go] and the properties of its
    state map (a last-writer-wins register per composite key), of its
    append, query and garbage collection operations, and of its
    length-delimited snapshot and gossip encoding.

    Conventions of the embedding:
    - a Go [map[string]*pb.MeshEntry] is a [gmap string pb.MeshEntry];
    - [for k, v := range m] visits the entries of [m] in an order chosen by
      the Go runtime: every loop over a map takes the visiting order as a
      list, and the theorems quantify over every order that [ranges] the map;
    - a Go [panic] is the [Panics] outcome, an [error] result is a value;
    - pointers that the code dereferences are [option]s ([None] is [nil]);
      the values of a map are never nil, every store puts a fresh message;
    - [[]byte] and [string] values used as keys are [string]s, encoded
      blocks are lists of bytes, a byte being a [Z] in [0, 256). *)

From Stdlib Require Import ZArith Zdiv Ascii String DecimalString List Lia.
From stdpp Require Import gmap strings list fin_maps.

Local Open Scope Z_scope.

(** ** Go runtime: errors and panics *)

(** Values of Go's [error] interface that this package produces or passes
    on. [errorString] is what [errors.New] builds. *)
Inductive error : Type :=
  | errorString (msg : string)
  | errTimestampBefore0001 (seconds nanos : Z)
  | errTimestampAfter10000 (seconds nanos : Z)
  | errTimestampNanos (seconds nanos : Z)
  | io_EOF
  | io_ErrUnexpectedEOF
  | errInvalidVarint
  | errProto (msg : string).

Inductive panic_value : Type :=
  | nilDereference
  | indexOutOfRange
  | panicError (err : error).

Inductive outcome (A : Type) : Type :=
  | Returns (a : A)
  | Panics (p : panic_value).
Arguments Returns {A} a.
Arguments Panics {A} p.

#[global] Instance outcome_ret : MRet outcome := fun A a => Returns a.
#[global] Instance outcome_bind : MBind outcome := fun A B f m =>
  match m with
  | Returns a => f a
  | Panics p => Panics p
  end.

Definition len {A : Type} (l : list A) : Z := Z.of_nat (length l).

(** ** package time *)
Module time.
(** An instant, in nanoseconds since the Unix epoch. Go's [Time] covers
    a far larger range than any instant that passes [validateTimestamp]
    below, and within that range its arithmetic is exact. *)
Definition Time : Type := Z.
(** A [Duration] is an int64 count of nanoseconds. *)
Definition Duration : Type := Z.

Definition Unix (sec nsec : Z) : Time := sec * 1000000000 + nsec.
Definition After (t u : Time) : bool := u <? t.
Definition Before (t u : Time) : bool := t <? u.
Definition Add (t : Time) (d : Duration) : Time := t + d.
Definition Sub (t u : Time) : Duration := t - u.
(** [t.Unix()]: whole seconds since the epoch, rounded down. *)
Definition ToUnix (t : Time) : Z := t / 1000000000.
End time.

(** ** package ptypes/timestamp and package ptypes *)
Module tspb.
Record Timestamp : Type := mkTimestamp { Seconds : Z; Nanos : Z }.
End tspb.

Module ptypes.
Definition minValidSeconds : Z := -62135596800.
Definition maxValidSeconds : Z := 253402300800.

Definition validateTimestamp (ts : option tspb.Timestamp) : option error :=
  match ts with
  | None => Some (errorString "timestamp: nil Timestamp")
  | Some ts =>
    if tspb.Seconds ts <? minValidSeconds
    then Some (errTimestampBefore0001 (tspb.Seconds ts) (tspb.Nanos ts))
    else if maxValidSeconds <=? tspb.Seconds ts
    then Some (errTimestampAfter10000 (tspb.Seconds ts) (tspb.Nanos ts))
    else if (tspb.Nanos ts <? 0) || (1000000000 <=? tspb.Nanos ts)
    then Some (errTimestampNanos (tspb.Seconds ts) (tspb.Nanos ts))
    else None
  end.

(** [ptypes.Timestamp]: the instant and the validation error, both
    returned as in Go. *)
Definition Timestamp (ts : option tspb.Timestamp) : time.Time * option error :=
  (match ts with
   | None => time.Unix 0 0
   | Some t => time.Unix (tspb.Seconds t) (tspb.Nanos t)
   end,
   validateTimestamp ts).

Definition TimestampProto (t : time.Time) : option tspb.Timestamp * option error :=
  let seconds := time.ToUnix t in
  let nanos := time.Sub t (time.Unix seconds 0) in
  let ts := tspb.mkTimestamp seconds nanos in
  match validateTimestamp (Some ts) with
  | Some err => (None, Some err)
  | None => (Some ts, None)
  end.
End ptypes.

(** ** package nflogpb: the messages *)

(** The receiver message and its [String] method (what [%s] prints for a
    [*pb.Receiver], [None] being the nil pointer) are declared outside the
    package; the development is parametric in them. *)
Class ReceiverSchema : Type := {
  Receiver : Type;
  Receiver_String : option Receiver -> string
}.

Module pb.
Section messages.
Context `{ReceiverSchema}.

Record Entry : Type := mkEntry {
  GroupKey : string;
  Entry_Receiver : option Receiver;
  GroupHash : string;
  Resolved : bool;
  Timestamp : option tspb.Timestamp
}.

Record MeshEntry : Type := mkMeshEntry {
  MeshEntry_Entry : option Entry;
  ExpiresAt : option tspb.Timestamp
}.
End messages.
End pb.

(** The protocol-buffer encoding of a mesh entry ([proto.Marshal] and
    [proto.Unmarshal]) is likewise a parameter. *)
Class MeshEntryCodec `{ReceiverSchema} : Type := {
  Marshal : pb.MeshEntry -> error + list Z;
  Unmarshal : list Z -> error + pb.MeshEntry
}.

(** ** package nflog *)

Definition ErrNotFound : error := errorString "not found".

Section nflog.
Context `{ReceiverSchema}.

(** [gossipData], also the type of the log's state [st]. *)
Local Abbreviation gossipData := (gmap string pb.MeshEntry).

(** The orders in which a [range] loop may visit a map. *)
Definition ranges (m : gossipData) (order : list (string * pb.MeshEntry)) : Prop :=
  order ≡ₚ map_to_list m.

(** [stateKey]: [fmt.Sprintf("%s:%s", k, r)]. *)
Definition stateKey (k : string) (r : option Receiver) : string :=
  k +:+ ":" +:+ Receiver_String r.

(** *** Merge *)

(** One iteration of the loop of [Merge]. *)
Definition Merge_iter (gd : gossipData) (k : string) (e : pb.MeshEntry)
  : outcome gossipData :=
  match gd !! k with
  | None => Returns (<[k := e]> gd)
  | Some prev =>
    match pb.MeshEntry_Entry prev with
    | None => Panics nilDereference
    | Some pe =>
      match ptypes.Timestamp (pb.Timestamp pe) with
      | (_, Some err) => Panics (panicError err)
      | (pts, None) =>
        match pb.MeshEntry_Entry e with
        | None => Panics nilDereference
        | Some ee =>
          match ptypes.Timestamp (pb.Timestamp ee) with
          | (_, Some err) => Panics (panicError err)
          | (ets, None) =>
            Returns (if time.Before pts ets then <[k := e]> gd else gd)
          end
        end
      end
    end
  end.

(** [gd.Merge(other)], [other] visited in the given order. *)
Fixpoint Merge (gd : gossipData) (other : list (string * pb.MeshEntry))
  : outcome gossipData :=
  match other with
  | [] => Returns gd
  | (k, e) :: rest => gd' ← Merge_iter gd k e; Merge gd' rest
  end.

(** The instant an entry carries, when it has one that validates. *)
Definition entry_time (e : pb.MeshEntry) : option time.Time :=
  match pb.MeshEntry_Entry e with
  | None => None
  | Some en =>
    match ptypes.Timestamp (pb.Timestamp en) with
    | (t, None) => Some t
    | (_, Some _) => None
    end
  end.

(** *** mergeDelta *)

(** One iteration of the loop of [mergeDelta]: the state and the delta. *)
Definition mergeDelta_iter (gd delta : gossipData) (k : string) (e : pb.MeshEntry)
  : outcome (gossipData * gossipData) :=
  match gd !! k with
  | None => Returns (<[k := e]> gd, <[k := e]> delta)
  | Some prev =>
    match pb.MeshEntry_Entry prev with
    | None => Panics nilDereference
    | Some pe =>
      match ptypes.Timestamp (pb.Timestamp pe) with
      | (_, Some err) => Panics (panicError err)
      | (pts, None) =>
        match pb.MeshEntry_Entry e with
        | None => Panics nilDereference
        | Some ee =>
          match ptypes.Timestamp (pb.Timestamp ee) with
          | (_, Some err) => Panics (panicError err)
          | (ets, None) =>
            Returns (if time.Before pts ets
                     then (<[k := e]> gd, <[k := e]> delta)
                     else (gd, delta))
          end
        end
      end
    end
  end.

Fixpoint mergeDelta_loop (gd delta : gossipData) (od : list (string * pb.MeshEntry))
  : outcome (gossipData * gossipData) :=
  match od with
  | [] => Returns (gd, delta)
  | (k, e) :: rest =>
    '(gd', delta') ← mergeDelta_iter gd delta k e; mergeDelta_loop gd' delta' rest
  end.

(** [gd.mergeDelta(od)]: the updated [gd] and the returned delta. *)
Definition mergeDelta (gd : gossipData) (od : list (string * pb.MeshEntry))
  : outcome (gossipData * gossipData) :=
  mergeDelta_loop gd ∅ od.

(** *** log, LogActive, LogResolved *)

(** [l.log(r, gkey, ghash, resolved)] with [l.now()] = [now]: the new
    state and the returned error. *)
Definition log (now : time.Time) (retention : time.Duration) (st : gossipData)
    (r : option Receiver) (gkey ghash : string) (resolved : bool)
  : outcome (gossipData * option error) :=
  let key := stateKey gkey r in
  let store : outcome (gossipData * option error) :=
    match ptypes.TimestampProto now with
    | (_, Some err) => Returns (st, Some err)
    | (ts, None) =>
      match ptypes.TimestampProto (time.Add now retention) with
      | (_, Some err) => Returns (st, Some err)
      | (expts, None) =>
        Returns (<[key := pb.mkMeshEntry
                           (Some (pb.mkEntry gkey r ghash resolved ts))
                           expts]> st, None)
      end
    end in
  match st !! key with
  | Some prevle =>
    match pb.MeshEntry_Entry prevle with
    | None => Panics nilDereference
    | Some pe =>
      match ptypes.Timestamp (pb.Timestamp pe) with
      | (_, Some err) => Returns (st, Some err)
      | (prevts, None) =>
        if time.After prevts now then Returns (st, None) else store
      end
    end
  | None => store
  end.

Definition LogActive now retention st r key hash := log now retention st r key hash false.
Definition LogResolved now retention st r key hash := log now retention st r key hash true.

(** *** GC *)

(** The loop of [GC] over the entries still to visit; a deletion only
    ever removes the entry being visited, so the visiting order of the
    remaining entries is unaffected. *)
Fixpoint GC_loop (now : time.Time) (st : gossipData) (n : Z)
    (todo : list (string * pb.MeshEntry)) : gossipData * Z * option error :=
  match todo with
  | [] => (st, n, None)
  | (k, le) :: rest =>
    match ptypes.Timestamp (pb.ExpiresAt le) with
    | (_, Some err) => (st, n, Some err)
    | (ets, None) =>
      if negb (time.After ets now)
      then GC_loop now (delete k st) (n + 1) rest
      else GC_loop now st n rest
    end
  end.

(** [l.GC()] with [l.now()] = [now], the state visited in [order]. *)
Definition GC (now : time.Time) (st : gossipData) (order : list (string * pb.MeshEntry))
  : gossipData * Z * option error :=
  GC_loop now st 0 order.

(** *** Query *)

Record query : Type := mkQuery {
  recv : option Receiver;
  groupKey : option string
}.

(** A [QueryParam] updates the query descriptor and may fail. *)
Definition QueryParam : Type := query -> query * option error.

Definition QReceiver (r : option Receiver) : QueryParam :=
  fun q => (mkQuery r (groupKey q), None).

Definition QGroupKey (gk : option string) : QueryParam :=
  fun q => (mkQuery (recv q) gk, None).

Fixpoint apply_params (params : list QueryParam) (q : query) : query * option error :=
  match params with
  | [] => (q, None)
  | p :: rest =>
    match p q with
    | (q', Some err) => (q', Some err)
    | (q', None) => apply_params rest q'
    end
  end.

Definition errNoQueryParams : error := errorString "no query parameters specified".

(** [l.Query(params...)]: the entries (the nil slice is [[]]) and the error. *)
Definition Query (st : gossipData) (params : list QueryParam)
  : list (option pb.Entry) * option error :=
  match apply_params params (mkQuery None None) with
  | (_, Some err) => ([], Some err)
  | (q, None) =>
    match recv q, groupKey q with
    | Some r, Some gk =>
      match st !! stateKey gk (Some r) with
      | Some le => ([pb.MeshEntry_Entry le], None)
      | None => ([], Some ErrNotFound)
      end
    | _, _ => ([], Some errNoQueryParams)
    end
  end.

End nflog.

(** ** package pbutil: length-delimited messages *)

(** [binary.MaxVarintLen32], the size of the header buffer. *)
Definition MaxVarintLen32 : nat := 5.

(** [binary.PutUvarint(buf, x)] on a buffer of [room] bytes: the bytes
    written; writing past the buffer is a run-time panic. *)
Fixpoint PutUvarint (room : nat) (x : Z) : outcome (list Z) :=
  match room with
  | O => Panics indexOutOfRange
  | S room' =>
    if x <? 128 then Returns [x]
    else rest ← PutUvarint room' (Z.shiftr x 7);
         Returns (Z.lor (x mod 256) 128 :: rest)
  end.

(** [proto.DecodeVarint(buf)]: the value and the number of bytes used,
    [(0, 0)] when [buf] holds no complete varint. [iters] counts the
    iterations left of [for shift := 0; shift < 64; shift += 7]. *)
Fixpoint DecodeVarint_loop (iters : nat) (shift : Z) (buf : list Z) (x n : Z) : Z * Z :=
  match iters with
  | O => (0, 0)
  | S iters' =>
    match buf with
    | [] => (0, 0)
    | b :: buf' =>
      let x' := Z.lor x (Z.shiftl (Z.land b 127) shift mod 2 ^ 64) in
      if Z.land b 128 =? 0 then (x', n + 1)
      else DecodeVarint_loop iters' (shift + 7) buf' x' (n + 1)
    end
  end.

Definition DecodeVarint (buf : list Z) : Z * Z := DecodeVarint_loop 10 0 buf 0 0.

(** The header loop of [ReadDelimited]: bytes are read one at a time into
    [headerBuf] until they decode as a varint; [room] is what is left of
    the header buffer. The reader is the list of bytes still to come. *)
Fixpoint readHeader (room : nat) (headerBuf r : list Z) : Z * (error + Z * list Z) :=
  match room with
  | O => (len headerBuf, inl errInvalidVarint)
  | S room' =>
    match r with
    | [] => (len headerBuf, inl io_EOF)
    | b :: r' =>
      let headerBuf' := headerBuf ++ [b] in
      let '(messageLength, varIntBytes) := DecodeVarint headerBuf' in
      if varIntBytes =? 0 then readHeader room' headerBuf' r'
      else (len headerBuf', inr (messageLength, r'))
    end
  end.

(** [io.ReadFull(r, buf)] for a buffer of [size] bytes. *)
Definition io_ReadFull (r : list Z) (size : Z) : Z * (error + list Z * list Z) :=
  if size <=? len r then (size, inr (take (Z.to_nat size) r, drop (Z.to_nat size) r))
  else if len r =? 0 then (0, inl io_EOF)
  else (len r, inl io_ErrUnexpectedEOF).

Section pbutil.
Context `{MeshEntryCodec}.

(** [pbutil.WriteDelimited(w, m)] on a writer that appends to [w] and
    does not fail (a [bytes.Buffer], a healthy file): the writer
    afterwards, the byte count and the error. *)
Definition WriteDelimited (w : list Z) (m : pb.MeshEntry)
  : outcome (list Z * Z * option error) :=
  match Marshal m with
  | inl err => Returns (w, 0, Some err)
  | inr buffer =>
    header ← PutUvarint MaxVarintLen32 (len buffer);
    Returns (w ++ header ++ buffer, len buffer + len header, None)
  end.

(** [pbutil.ReadDelimited(r, &e)]: the reader afterwards, the byte count
    and the message or the error. *)
Definition ReadDelimited (r : list Z) : list Z * Z * (error + pb.MeshEntry) :=
  match readHeader MaxVarintLen32 [] r with
  | (bytesRead, inl err) => (r, bytesRead, inl err)
  | (bytesRead, inr (messageLength, r')) =>
    match io_ReadFull r' messageLength with
    | (newBytesRead, inl err) => (r', bytesRead + newBytesRead, inl err)
    | (newBytesRead, inr (messageBuf, r'')) =>
      (r'', bytesRead + newBytesRead, Unmarshal messageBuf)
    end
  end.
End pbutil.

Section snapshots.
Context `{MeshEntryCodec}.
Local Abbreviation gossipData := (gmap string pb.MeshEntry).

(** The decoding loop that [loadSnapshot] and [decodeGossipData] both
    run: entries are read until the reader reports [io.EOF]. Each entry
    read consumes at least one byte; [fuel] bounds the iterations and
    [None] means that it ran out. *)
Fixpoint readEntries (fuel : nat) (r : list Z) (st : gossipData)
  : option (outcome (gossipData * option error)) :=
  match fuel with
  | O => None
  | S fuel' =>
    match ReadDelimited r with
    | (_, _, inl io_EOF) => Some (Returns (st, None))
    | (_, _, inl err) => Some (Returns (st, Some err))
    | (r', _, inr e) =>
      match pb.MeshEntry_Entry e with
      | None => Some (Panics nilDereference)
      | Some en =>
        readEntries fuel' r'
          (<[stateKey (pb.GroupKey en) (pb.Entry_Receiver en) := e]> st)
      end
    end
  end.

(** [decodeGossipData(msg)]: the map built so far and the error. *)
Definition decodeGossipData (msg : list Z)
  : option (outcome (gossipData * option error)) :=
  readEntries (S (length msg)) msg ∅.

(** [l.loadSnapshot(r)]: the state of the log afterwards (replaced only
    when the whole snapshot was read) and the error. *)
Definition loadSnapshot (l_st : gossipData) (r : list Z)
  : option (outcome (gossipData * option error)) :=
  match readEntries (S (length r)) r ∅ with
  | None => None
  | Some (Panics p) => Some (Panics p)
  | Some (Returns (_, Some err)) => Some (Returns (l_st, Some err))
  | Some (Returns (st, None)) => Some (Returns (st, None))
  end.

(** The loop of [Snapshot]. *)
Fixpoint Snapshot_loop (w : list Z) (n : Z) (todo : list (string * pb.MeshEntry))
  : outcome (list Z * Z * option error) :=
  match todo with
  | [] => Returns (w, n, None)
  | (_, e) :: rest =>
    '(w', m, err) ← WriteDelimited w e;
    match err with
    | Some err => Returns (w', n + m, Some err)
    | None => Snapshot_loop w' (n + m) rest
    end
  end.

(** [l.Snapshot(w)], the state visited in [order]: the writer afterwards,
    the byte count and the error. *)
Definition Snapshot (order : list (string * pb.MeshEntry)) (w : list Z)
  : outcome (list Z * Z * option error) :=
  Snapshot_loop w 0 order.

Definition maxSize : Z := 1024 * 1024.

(** The loop of [Encode]: the buffer, the blocks cut so far and the
    running byte count [n]. *)
Fixpoint Encode_loop (buf : list Z) (res : list (list Z)) (n : Z)
    (todo : list (string * pb.MeshEntry)) : outcome (list Z * list (list Z) * Z) :=
  match todo with
  | [] => Returns (buf, res, n)
  | (_, e) :: rest =>
    '(buf', m, err) ← WriteDelimited buf e;
    let n' := n + m in
    match err with
    | Some err => Panics (panicError err)
    | None =>
      if maxSize <? n' then Encode_loop [] (res ++ [buf']) n' rest
      else Encode_loop buf' res n' rest
    end
  end.

(** [gd.Encode()], [gd] visited in [order]. *)
Definition Encode (order : list (string * pb.MeshEntry)) : outcome (list (list Z)) :=
  '(buf, res, _) ← Encode_loop [] [] 0 order;
  Returns (if 0 <? len buf then res ++ [buf] else res).
End snapshots.

(** ** package nflog: the mesh.Gossiper callbacks *)

Section gossip.
Context `{MeshEntryCodec}.
Local Abbreviation gossipData := (gmap string pb.MeshEntry).

(** [gd.clone()], [gd] visited in [order]. *)
Definition clone (order : list (string * pb.MeshEntry)) : gossipData :=
  foldl (λ res kv, <[kv.1 := kv.2]> res) ∅ order.

(** [l.Gossip()], the state visited in [order]: the loop is that of [clone]. *)
Definition Gossip (order : list (string * pb.MeshEntry)) : gossipData :=
  foldl (λ gd kv, <[kv.1 := kv.2]> gd) ∅ order.

(** [l.OnGossip(msg)]: the state afterwards, the returned gossip data
    ([None] is the nil interface value) and the error. [visit] is the order
    in which the runtime visits the decoded map inside [mergeDelta]. *)
Definition OnGossip (visit : gossipData → list (string * pb.MeshEntry))
    (l_st : gossipData) (msg : list Z)
  : option (outcome (gossipData * option gossipData * option error)) :=
  match decodeGossipData msg with
  | None => None
  | Some (Panics p) => Some (Panics p)
  | Some (Returns (_, Some err)) => Some (Returns (l_st, None, Some err))
  | Some (Returns (gd, None)) =>
    Some ('(st', delta) ← mergeDelta l_st (visit gd);
          Returns (st', if 0 <? Z.of_nat (size delta) then Some delta else None, None))
  end.

(** [l.OnGossipBroadcast(src, msg)]; the sender [src] is not used. *)
Definition OnGossipBroadcast (visit : gossipData → list (string * pb.MeshEntry))
    (l_st : gossipData) (msg : list Z)
  : option (outcome (gossipData * option gossipData * option error)) :=
  match decodeGossipData msg with
  | None => None
  | Some (Panics p) => Some (Panics p)
  | Some (Returns (_, Some err)) => Some (Returns (l_st, None, Some err))
  | Some (Returns (gd, None)) =>
    Some ('(st', delta) ← mergeDelta l_st (visit gd);
          Returns (st', Some delta, None))
  end.
End gossip.

(** ** Vocabulary of the specification *)

Section vocabulary.
Context `{ReceiverSchema}.
Local Abbreviation gossipData := (gmap string pb.MeshEntry).

(** The entry a last-writer-wins register keeps when [e] arrives for a
    key that holds [prev]: [e] only when its instant is strictly later. *)
Definition lww (prev e : pb.MeshEntry) : pb.MeshEntry :=
  match entry_time prev, entry_time e with
  | Some pts, Some ets => if pts <? ets then e else prev
  | _, _ => prev
  end.

Definition lww_opt (prev : option pb.MeshEntry) (e : pb.MeshEntry) : pb.MeshEntry :=
  match prev with
  | None => e
  | Some prev => lww prev e
  end.

(** Every entry of the map carries a timestamp that validates. *)
Definition timestamps_ok (gd : gossipData) : Prop :=
  ∀ k e, gd !! k = Some e → is_Some (entry_time e).

(** The entries that [gd] and [other] hold for a common key carry
    timestamps that validate. *)
Definition comparable (gd other : gossipData) : Prop :=
  ∀ k prev e, gd !! k = Some prev → other !! k = Some e →
    is_Some (entry_time prev) ∧ is_Some (entry_time e).

(** [gd'] is the last-writer-wins merge of [other] into [gd]. *)
Definition lww_merge_of (gd other gd' : gossipData) : Prop :=
  (∀ k e, other !! k = Some e → gd !! k = None → gd' !! k = Some e) ∧
  (∀ k e prev pts ets,
      other !! k = Some e → gd !! k = Some prev →
      entry_time prev = Some pts → entry_time e = Some ets →
      gd' !! k = Some (if pts <? ets then e else prev)) ∧
  (∀ k, other !! k = None → gd' !! k = gd !! k).

(** A consistent clock: two entries for one key with the same instant
    are the same entry. *)
Definition consistent_clock (a b : gossipData) : Prop :=
  ∀ k ea eb, a !! k = Some ea → b !! k = Some eb →
    entry_time ea = entry_time eb → ea = eb.
(** An incoming entry [e] changes a key that holds [prev]: the key is
    absent, or [e] is strictly later. *)
Definition changes (prev : option pb.MeshEntry) (e : pb.MeshEntry) : bool :=
  match prev with
  | None => true
  | Some prev =>
    match entry_time prev, entry_time e with
    | Some pts, Some ets => pts <? ets
    | _, _ => false
    end
  end.
(** An instant that a protocol timestamp can hold: from year 1 up to,
    and not including, year 10000. *)
Definition representable (t : time.Time) : Prop :=
  ptypes.minValidSeconds * 1000000000 ≤ t < ptypes.maxValidSeconds * 1000000000.

(** The state holds for [key] an entry with a timestamp strictly after [now]. *)
Definition has_newer_entry (st : gossipData) (key : string) (now : time.Time) : Prop :=
  ∃ prev t, st !! key = Some prev ∧ entry_time prev = Some t ∧ now < t.

(** [st'] is [st] with a new mesh entry for the key of [(gkey, r)], its
    timestamp [now] and its expiry [now + retention]. *)
Definition appended (now : time.Time) (retention : time.Duration) (st : gossipData)
    (r : option Receiver) (gkey ghash : string) (resolved : bool)
    (st' : gossipData) : Prop :=
  ∃ ts expts,
    st' = <[stateKey gkey r :=
              pb.mkMeshEntry (Some (pb.mkEntry gkey r ghash resolved (Some ts)))
                             (Some expts)]> st ∧
    ptypes.Timestamp (Some ts) = (now, None) ∧
    ptypes.Timestamp (Some expts) = (time.Add now retention, None).

(** What an append is to do, as the specification words it. *)
Definition log_claim (now : time.Time) (retention : time.Duration) (st : gossipData)
    (r : option Receiver) (gkey ghash : string) (resolved : bool) : Prop :=
  (has_newer_entry st (stateKey gkey r) now →
     log now retention st r gkey ghash resolved = Returns (st, None)) ∧
  (¬ has_newer_entry st (stateKey gkey r) now →
     ∃ st', log now retention st r gkey ghash resolved = Returns (st', None) ∧
            appended now retention st r gkey ghash resolved st').

(** The expiry instant of an entry, when it validates. *)
Definition expiry_time (e : pb.MeshEntry) : option time.Time :=
  match ptypes.Timestamp (pb.ExpiresAt e) with
  | (t, None) => Some t
  | (_, Some _) => None
  end.

Definition expiries_ok (st : gossipData) : Prop :=
  ∀ k e, st !! k = Some e → is_Some (expiry_time e).

(** The expiry of [e] is not strictly after [now]. *)
Definition expired (now : time.Time) (e : pb.MeshEntry) : bool :=
  match expiry_time e with
  | Some t => negb (now <? t)
  | None => false
  end.

(** The number of expired entries among those visited. *)
Definition expired_count (now : time.Time) (visited : list (string * pb.MeshEntry)) : Z :=
  len (List.filter (λ kv, expired now kv.2) visited).

(** The separator of [stateKey] does not occur in the string. *)
Definition separator_free (s : string) : Prop :=
  ":"%char ∉ list_ascii_of_string s.
End vocabulary.

Section codec_vocabulary.
Context `{MeshEntryCodec}.
Local Abbreviation gossipData := (gmap string pb.MeshEntry).

(** The codec encodes [e] into a message short enough for the five-byte
    length header. *)
Definition encodable (e : pb.MeshEntry) : Prop :=
  ∃ buffer, Marshal e = inr buffer ∧ len buffer < 2 ^ 35.

(** The codec encodes [e] and decodes the message back to [e]. *)
Definition round_trips (e : pb.MeshEntry) : Prop :=
  ∃ buffer, Marshal e = inr buffer ∧ len buffer < 2 ^ 35 ∧ Unmarshal buffer = inr e.

(** The framed encoding of an entry: the varint length header, then the
    message (and nothing when the entry is not [encodable]). *)
Definition frame (e : pb.MeshEntry) : list Z :=
  match Marshal e with
  | inr buffer =>
    match PutUvarint MaxVarintLen32 (len buffer) with
    | Returns header => header ++ buffer
    | Panics _ => []
    end
  | inl _ => []
  end.

(** The framed encodings of the entries visited, one after the other. *)
Definition frames (visited : list (string * pb.MeshEntry)) : list Z :=
  flat_map (λ kv, frame kv.2) visited.

(** The key of every entry is the composite key of its own group key and
    receiver. *)
Definition keyed_by_entry (st : gossipData) : Prop :=
  ∀ k e, st !! k = Some e →
    ∃ en, pb.MeshEntry_Entry e = Some en ∧
          k = stateKey (pb.GroupKey en) (pb.Entry_Receiver en).


(** A run of entries that [Encode] puts into one block: the run is not
    empty, and without its last entry it frames to at most [maxSize]. *)
Definition block_run (run : list (string * pb.MeshEntry)) : Prop :=
  ∃ front last, run = front ++ [last] ∧ len (frames front) ≤ maxSize.
(** What the loop of [Encode] maintains: while the running count [n] is
    within [maxSize] it is the size of the buffer, which holds the frames
    of [cur]; once it is beyond, the buffer is empty after every entry. *)
Definition Encode_inv (cur : list (string * pb.MeshEntry)) (n : Z) : Prop :=
  (n ≤ maxSize ∧ n = len (frames cur)) ∨ (maxSize < n ∧ cur = []).
(** The composite key of an entry's own group key and receiver. *)
Definition own_key (e : pb.MeshEntry) : option string :=
  match pb.MeshEntry_Entry e with
  | Some en => Some (stateKey (pb.GroupKey en) (pb.Entry_Receiver en))
  | None => None
  end.

(** The messages of a peer delivered one after the other to
    [OnGossipBroadcast]: the state after the last one, as long as every
    delivery returned without error. *)
Fixpoint deliver (visit : gossipData → list (string * pb.MeshEntry))
    (st : gossipData) (msgs : list (list Z)) : option gossipData :=
  match msgs with
  | [] => Some st
  | msg :: rest =>
    match OnGossipBroadcast visit st msg with
    | Some (Returns (st', _, None)) => deliver visit st' rest
    | _ => None
    end
  end.

(** A byte with the continuation bit of a varint. *)
Definition continued (b : Z) : Prop := Z.land b 128 ≠ 0.
End codec_vocabulary.

(** ** Canonical receiver forms as the text marshaller prints them *)

(** Where a scan of a canonical form stands: at its start, outside a
    quoted value, just after a separator outside a value, inside a quoted
    value, or inside one just after a backslash. *)
Inductive scan_state : Type :=
  | AtStart
  | Outside
  | AfterSeparator
  | Inside
  | Escaped.

Definition is_digit (c : ascii) : bool :=
  (48 <=? N_of_ascii c)%N && (N_of_ascii c <=? 57)%N.

(** A form starts with the lower-case letter of a field name, or with the
    [<] of [<nil>]. *)
Definition is_form_start (c : ascii) : bool :=
  ((97 <=? N_of_ascii c)%N && (N_of_ascii c <=? 122)%N) || (N_of_ascii c =? 60)%N.

Definition is_quote (c : ascii) : bool := (N_of_ascii c =? 34)%N.
Definition is_backslash (c : ascii) : bool := (N_of_ascii c =? 92)%N.
Definition is_separator (c : ascii) : bool := (N_of_ascii c =? 58)%N.

(** One character of the scan; [None] when the character cannot come
    there. Outside a value a separator is followed by a quote, which opens
    a value, or by a digit; inside a value a quote closes it unless a
    backslash comes before. *)
Definition scan_step (q : scan_state) (c : ascii) : option scan_state :=
  match q with
  | AtStart => if is_form_start c then Some Outside else None
  | Outside =>
    if is_quote c || is_backslash c then None
    else if is_separator c then Some AfterSeparator
    else Some Outside
  | AfterSeparator =>
    if is_quote c then Some Inside
    else if is_digit c then Some Outside
    else None
  | Inside =>
    if is_quote c then Some Outside
    else if is_backslash c then Some Escaped
    else Some Inside
  | Escaped => Some Inside
  end.

Fixpoint scan (q : scan_state) (l : list ascii) : option scan_state :=
  match l with
  | [] => Some q
  | c :: l' =>
    match scan_step q c with
    | Some q' => scan q' l'
    | None => None
    end
  end.

Definition outside_value (q : scan_state) : bool :=
  match q with
  | AtStart | Outside | AfterSeparator => true
  | Inside | Escaped => false
  end.

(** The string has the shape of a canonical form: it is empty or starts
    as a form starts, every quoted value in it is closed, and outside the
    values there is no quote but the one that opens a value after a
    separator. *)
Definition quoted_form (s : string) : Prop :=
  scan AtStart (list_ascii_of_string s) = Some AtStart ∨
  scan AtStart (list_ascii_of_string s) = Some Outside.

(** A state in which a field may start. *)
Definition between_fields (q : scan_state) : Prop := q = AtStart ∨ q = Outside.

(** A field name: lower-case letters and [_], a letter first. *)
Definition field_name (name : string) : Prop :=
  scan AtStart (list_ascii_of_string name) = Some Outside ∧
  scan Outside (list_ascii_of_string name) = Some Outside.

(** ** Sample receivers, codecs and states *)

(** Receivers known by name, printed as their name. *)
Definition named_receivers : ReceiverSchema :=
  {| Receiver := string;
     Receiver_String := λ r, match r with Some name => name | None => "<nil>" end |}.

(** A codec that writes the fields of a mesh entry one after the other,
    strings with their length first and absent fields as a zero. *)
Definition put_string (s : string) : list Z :=
  len (list_ascii_of_string s)
    :: map (λ c, Z.of_N (N_of_ascii c)) (list_ascii_of_string s).

Definition get_string (l : list Z) : option (string * list Z) :=
  match l with
  | [] => None
  | n :: rest =>
    if (0 <=? n) && (n <=? len rest)
    then Some (string_of_list_ascii
                 (map (λ b, ascii_of_N (Z.to_N b)) (take (Z.to_nat n) rest)),
               drop (Z.to_nat n) rest)
    else None
  end.

Definition put_option {A : Type} (put : A → list Z) (o : option A) : list Z :=
  match o with
  | None => [0]
  | Some a => 1 :: put a
  end.

Definition get_option {A : Type} (get : list Z → option (A * list Z)) (l : list Z)
  : option (option A * list Z) :=
  match l with
  | 0 :: rest => Some (None, rest)
  | 1 :: rest => '(a, rest') ← get rest; Some (Some a, rest')
  | _ => None
  end.

(** An int64 as eight bytes, the low byte first. *)
Definition put_int64 (x : Z) : list Z :=
  map (λ i, Z.land (Z.shiftr x (8 * i)) 255) [0; 1; 2; 3; 4; 5; 6; 7].

Definition get_int64 (l : list Z) : option (Z * list Z) :=
  match l with
  | b0 :: b1 :: b2 :: b3 :: b4 :: b5 :: b6 :: b7 :: rest =>
    let u := foldr (λ b acc, b + 256 * acc) 0 [b0; b1; b2; b3; b4; b5; b6; b7] in
    Some (if u <? 2 ^ 63 then u else u - 2 ^ 64, rest)
  | _ => None
  end.

Definition put_timestamp (ts : tspb.Timestamp) : list Z :=
  put_int64 (tspb.Seconds ts) ++ put_int64 (tspb.Nanos ts).

Definition get_timestamp (l : list Z) : option (tspb.Timestamp * list Z) :=
  '(seconds, l) ← get_int64 l;
  '(nanos, l) ← get_int64 l;
  Some (tspb.mkTimestamp seconds nanos, l).

Definition put_entry (en : @pb.Entry named_receivers) : list Z :=
  put_string (pb.GroupKey en) ++ put_option put_string (pb.Entry_Receiver en) ++
  put_string (pb.GroupHash en) ++ [if pb.Resolved en then 1 else 0] ++
  put_option put_timestamp (pb.Timestamp en).

Definition get_entry (l : list Z) : option (@pb.Entry named_receivers * list Z) :=
  '(gk, l) ← get_string l;
  '(r, l) ← get_option get_string l;
  '(gh, l) ← get_string l;
  match l with
  | resolved :: l =>
    '(ts, l) ← get_option get_timestamp l;
    Some (pb.mkEntry (H := named_receivers) gk r gh (negb (resolved =? 0)) ts, l)
  | [] => None
  end.

Definition cell_codec : @MeshEntryCodec named_receivers :=
  {| Marshal := λ e,
       inr (put_option put_entry (pb.MeshEntry_Entry e) ++
            put_option put_timestamp (pb.ExpiresAt e));
     Unmarshal := λ l,
       match
         '(en, l) ← get_option get_entry l;
         '(ex, l) ← get_option get_timestamp l;
         Some (pb.mkMeshEntry en ex, l)
       with
       | Some (e, []) => inr e
       | _ => inl (errProto "malformed mesh entry")
       end |}.

(** A codec whose messages all take [size] bytes; it shows how [Encode]
    cuts large states. *)
Definition padded_codec (size : Z) : @MeshEntryCodec named_receivers :=
  {| Marshal := λ _, inr (replicate (Z.to_nat size) 0);
     Unmarshal := λ _, inl (errProto "padding only") |}.

(** A codec that refuses a mesh entry without its entry part, and is the
    field-by-field codec otherwise. *)
Definition strict_codec : @MeshEntryCodec named_receivers :=
  {| Marshal := λ e,
       match pb.MeshEntry_Entry e with
       | Some _ => Marshal (MeshEntryCodec := cell_codec) e
       | None => inl (errProto "entry is not set")
       end;
     Unmarshal := Unmarshal (MeshEntryCodec := cell_codec) |}.

(** A codec that puts [size] bytes of padding before the fields of the
    field-by-field codec and skips them when it decodes: entries as large
    as those of a long group key, which [Encode] cuts into several blocks. *)
Definition wide_codec (size : Z) : @MeshEntryCodec named_receivers :=
  {| Marshal := λ e,
       match Marshal (MeshEntryCodec := cell_codec) e with
       | inr buffer => inr (replicate (Z.to_nat size) 0 ++ buffer)
       | inl err => inl err
       end;
     Unmarshal := λ l,
       Unmarshal (MeshEntryCodec := cell_codec) (drop (Z.to_nat size) l) |}.

(** The receiver message of nflogpb and the [String] method that is
    generated for it, [proto.CompactTextString]: every field that is set,
    as its name, a colon, its value and a space; a string value between
    quotes, with quotes, backslashes and bytes that do not print escaped;
    [<nil>] for the nil pointer. *)
Record text_receiver : Type := mkTextReceiver {
  group_name : string;
  integration : string;
  idx : N
}.

Definition backslash : ascii := ascii_of_N 92.
Definition double_quote : ascii := ascii_of_N 34.

Definition octal_digit (n : N) : ascii := ascii_of_N (48 + n mod 8).

Definition escape_byte (c : ascii) : list ascii :=
  let n := N_of_ascii c in
  if (n =? 10)%N then [backslash; "n"%char]
  else if (n =? 13)%N then [backslash; "r"%char]
  else if (n =? 9)%N then [backslash; "t"%char]
  else if (n =? 34)%N then [backslash; double_quote]
  else if (n =? 92)%N then [backslash; backslash]
  else if (32 <=? n)%N && (n <? 127)%N then [c]
  else [backslash; octal_digit (n / 64); octal_digit (n / 8); octal_digit n].

Definition writeString (v : string) : list ascii :=
  double_quote :: flat_map escape_byte (list_ascii_of_string v) ++ [double_quote].

Definition string_field (name v : string) : list ascii :=
  match v with
  | EmptyString => []
  | _ => list_ascii_of_string name ++ ":"%char :: writeString v ++ [" "%char]
  end.

Definition uint_field (name : string) (n : N) : list ascii :=
  if (n =? 0)%N then []
  else list_ascii_of_string name ++ ":"%char ::
       list_ascii_of_string (NilZero.string_of_uint (N.to_uint n)) ++ [" "%char].

Definition CompactTextString (r : option text_receiver) : string :=
  match r with
  | None => "<nil>"
  | Some r =>
    string_of_list_ascii
      (string_field "group_name" (group_name r) ++
       string_field "integration" (integration r) ++
       uint_field "idx" (idx r))
  end.

Definition text_receivers : ReceiverSchema :=
  {| Receiver := text_receiver; Receiver_String := CompactTextString |}.

Definition team_email : option text_receiver :=
  Some (mkTextReceiver "team" "email" 0).
Definition team_webhook_1 : option text_receiver :=
  Some (mkTextReceiver "team" "webhook" 1).

Definition team_email_A : option (@Receiver named_receivers) := Some "team/email/A".
Definition team_email_B : option (@Receiver named_receivers) := Some "team/email/B".

Definition key_A : string := @stateKey named_receivers "k" team_email_A.
Definition key_B : string := @stateKey named_receivers "k" team_email_B.

(** The entry of group ["k"] for a receiver, logged at [at_s] seconds and
    expiring at [until_s] seconds. *)
Definition entry_of (r : option (@Receiver named_receivers)) (at_s until_s : Z) : @pb.MeshEntry named_receivers :=
  pb.mkMeshEntry
    (Some (pb.mkEntry (H := named_receivers) "k" r "h1" false
             (Some (tspb.mkTimestamp at_s 0))))
    (Some (tspb.mkTimestamp until_s 0)).

(** An entry as a peer may send it: without a timestamp. *)
Definition entry_without_timestamp : @pb.MeshEntry named_receivers :=
  pb.mkMeshEntry
    (Some (pb.mkEntry (H := named_receivers) "k" team_email_A "h0" false None))
    (Some (tspb.mkTimestamp 200 0)).

(** An entry whose expiry is missing. *)
Definition entry_without_expiry : @pb.MeshEntry named_receivers :=
  pb.mkMeshEntry
    (Some (pb.mkEntry (H := named_receivers) "k" team_email_B "h1" false
             (Some (tspb.mkTimestamp 5 0))))
    None.

(** A mesh entry without its entry part. *)
Definition entry_without_entry : @pb.MeshEntry named_receivers :=
  pb.mkMeshEntry None (Some (tspb.mkTimestamp 200 0)).

(** * Properties *)

Section merge_properties.
Context `{ReceiverSchema}.
Local Abbreviation gossipData := (gmap string pb.MeshEntry).
Implicit Types gd other delta : gossipData.
Implicit Types order : list (string * pb.MeshEntry).

Lemma ranges_NoDup gd order : ranges gd order → NoDup order.*1.
Proof.
  unfold ranges. intros Hp. rewrite Hp. apply NoDup_fst_map_to_list.
Qed.

Lemma ranges_list_to_map gd order : ranges gd order → list_to_map order = gd.
Proof.
  intros Hp. rewrite <- (list_to_map_to_list gd).
  apply list_to_map_proper; [by eapply ranges_NoDup | exact Hp].
Qed.

Lemma ranges_elem_of gd order k e : ranges gd order → (k, e) ∈ order ↔ gd !! k = Some e.
Proof.
  unfold ranges. intros Hp. rewrite Hp. apply elem_of_map_to_list.
Qed.

Lemma ranges_map_to_list gd : ranges gd (map_to_list gd).
Proof. unfold ranges. reflexivity. Qed.

Lemma Merge_iter_returns gd k e :
  (∀ prev, gd !! k = Some prev → is_Some (entry_time prev) ∧ is_Some (entry_time e)) →
  Merge_iter gd k e = Returns (<[k := lww_opt (gd !! k) e]> gd).
Proof.
  intros Hcmp. unfold Merge_iter, lww_opt.
  destruct (gd !! k) as [prev|] eqn:Hk; [|done].
  destruct (Hcmp prev eq_refl) as [[pts Hp] [ets He]].
  unfold lww. rewrite Hp, He. unfold entry_time in Hp, He.
  destruct (pb.MeshEntry_Entry prev) as [pe|]; [|done].
  destruct (ptypes.Timestamp (pb.Timestamp pe)) as [pts' [perr|]]; [done|].
  destruct (pb.MeshEntry_Entry e) as [ee|]; [|done].
  destruct (ptypes.Timestamp (pb.Timestamp ee)) as [ets' [eerr|]]; [done|].
  simplify_eq. unfold time.Before.
  destruct (pts <? ets); [done|]. by rewrite insert_id.
Qed.

Lemma Merge_NoDup order :
  NoDup order.*1 → ∀ gd,
  (∀ k e prev, (k, e) ∈ order → gd !! k = Some prev →
     is_Some (entry_time prev) ∧ is_Some (entry_time e)) →
  ∃ gd', Merge gd order = Returns gd' ∧
    ∀ k, gd' !! k =
      match (list_to_map order : gossipData) !! k with
      | None => gd !! k
      | Some e => Some (lww_opt (gd !! k) e)
      end.
Proof.
  induction order as [|[k e] rest IH]; intros Hnd gd Hcmp.
  - exists gd. split; [done|]. intros k. simpl. by rewrite lookup_empty.
  - apply NoDup_cons in Hnd as [Hk Hnd]. simpl.
    rewrite Merge_iter_returns by (intros prev; apply Hcmp; left). simpl.
    destruct (IH Hnd (<[k := lww_opt (gd !! k) e]> gd)) as (gd' & Hm & Hl).
    { intros k' e' prev Hin. assert (k' ≠ k) as Hne.
      { intros ->. apply Hk. apply list_elem_of_fmap. by exists (k, e'). }
      rewrite lookup_insert_ne by done. apply Hcmp. by right. }
    exists gd'. split; [done|]. intros k'. rewrite Hl.
    destruct (decide (k' = k)) as [->|Hne].
    + rewrite lookup_insert_eq.
      rewrite (not_elem_of_list_to_map_1 rest k) by done. by rewrite lookup_insert_eq.
    + by rewrite !lookup_insert_ne by done.
Qed.

(** The merged map, pointwise. *)
Lemma Merge_lookup gd other order :
  ranges other order → comparable gd other →
  ∃ gd', Merge gd order = Returns gd' ∧
    ∀ k, gd' !! k = match other !! k with
                    | None => gd !! k
                    | Some e => Some (lww_opt (gd !! k) e)
                    end.
Proof.
  intros Hr Hcmp.
  destruct (Merge_NoDup order (ranges_NoDup _ _ Hr) gd) as (gd' & Hm & Hl).
  { intros k e prev Hin Hk. apply (Hcmp k); [done|]. by apply (ranges_elem_of other order). }
  exists gd'. split; [done|]. intros k. rewrite Hl.
  by rewrite (ranges_list_to_map _ _ Hr).
Qed.

(** C1 (as amended): merging [other] into [gd], when the entries the two
    maps hold for a common key carry well-formed timestamps, returns the
    map in which every key absent from [gd] holds the entry of [other],
    every key present in both holds the incoming entry only when its
    timestamp is strictly larger and the incumbent otherwise (so also on
    equal timestamps), and every other key is untouched. *)
Theorem Merge_last_writer_wins gd other order :
  ranges other order → comparable gd other →
  ∃ gd', Merge gd order = Returns gd' ∧ lww_merge_of gd other gd'.
Proof.
  intros Hr Hcmp. destruct (Merge_lookup gd other order Hr Hcmp) as (gd' & Hm & Hl).
  exists gd'. split; [done|]. repeat split.
  - intros k e He Hk. by rewrite Hl, He, Hk.
  - intros k e prev pts ets He Hk Hp Ht. rewrite Hl, He, Hk. simpl.
    unfold lww. by rewrite Hp, Ht.
  - intros k He. by rewrite Hl, He.
Qed.
End merge_properties.

Section merge_delta_properties.
Context `{ReceiverSchema}.
Local Abbreviation gossipData := (gmap string pb.MeshEntry).
Implicit Types gd other delta : gossipData.
Implicit Types order : list (string * pb.MeshEntry).

Lemma timestamps_ok_comparable gd other :
  timestamps_ok gd → timestamps_ok other → comparable gd other.
Proof. intros Hg Ho k prev e Hp He. split; [by eapply Hg | by eapply Ho]. Qed.

Lemma lww_opt_changes prev e :
  lww_opt prev e = if changes prev e then e else default e prev.
Proof.
  destruct prev as [prev|]; simpl; [|done]. unfold lww.
  destruct (entry_time prev) as [pts|]; [|done].
  destruct (entry_time e) as [ets|]; [|done].
  by destruct (pts <? ets).
Qed.

Lemma mergeDelta_iter_returns gd delta k e :
  (∀ prev, gd !! k = Some prev → is_Some (entry_time prev) ∧ is_Some (entry_time e)) →
  mergeDelta_iter gd delta k e =
    Returns (<[k := lww_opt (gd !! k) e]> gd,
             if changes (gd !! k) e then <[k := e]> delta else delta).
Proof.
  intros Hcmp. unfold mergeDelta_iter, lww_opt, changes.
  destruct (gd !! k) as [prev|] eqn:Hk; [|done].
  destruct (Hcmp prev eq_refl) as [[pts Hp] [ets He]].
  unfold lww. rewrite Hp, He. unfold entry_time in Hp, He.
  destruct (pb.MeshEntry_Entry prev) as [pe|]; [|done].
  destruct (ptypes.Timestamp (pb.Timestamp pe)) as [pts' [perr|]]; [done|].
  destruct (pb.MeshEntry_Entry e) as [ee|]; [|done].
  destruct (ptypes.Timestamp (pb.Timestamp ee)) as [ets' [eerr|]]; [done|].
  simplify_eq. unfold time.Before.
  destruct (pts <? ets); [done|]. by rewrite insert_id.
Qed.

Lemma mergeDelta_loop_NoDup order :
  NoDup order.*1 → ∀ gd delta,
  (∀ k e prev, (k, e) ∈ order → gd !! k = Some prev →
     is_Some (entry_time prev) ∧ is_Some (entry_time e)) →
  ∃ gd' delta', mergeDelta_loop gd delta order = Returns (gd', delta') ∧
    Merge gd order = Returns gd' ∧
    ∀ k, delta' !! k =
      match (list_to_map order : gossipData) !! k with
      | None => delta !! k
      | Some e => if changes (gd !! k) e then Some e else delta !! k
      end.
Proof.
  induction order as [|[k e] rest IH]; intros Hnd gd delta Hcmp.
  - exists gd, delta. repeat split.
  - apply NoDup_cons in Hnd as [Hk Hnd]. simpl.
    rewrite mergeDelta_iter_returns by (intros prev; apply Hcmp; left).
    rewrite Merge_iter_returns by (intros prev; apply Hcmp; left). simpl.
    destruct (IH Hnd (<[k := lww_opt (gd !! k) e]> gd)
                (if changes (gd !! k) e then <[k := e]> delta else delta))
      as (gd' & delta' & Hd & Hm & Hl).
    { intros k' e' prev Hin. assert (k' ≠ k) as Hne.
      { intros ->. apply Hk. apply list_elem_of_fmap. by exists (k, e'). }
      rewrite lookup_insert_ne by done. apply Hcmp. by right. }
    exists gd', delta'. split; [done|]. split; [done|]. intros k'. rewrite Hl.
    destruct (decide (k' = k)) as [->|Hne].
    + rewrite (not_elem_of_list_to_map_1 rest k) by done.
      rewrite lookup_insert_eq.
      destruct (changes (gd !! k) e); [by rewrite lookup_insert_eq | done].
    + rewrite !lookup_insert_ne by done.
      assert ((if changes (gd !! k) e then <[k := e]> delta else delta) !! k'
              = delta !! k') as ->; [|done].
      destruct (changes (gd !! k) e); [by rewrite lookup_insert_ne | done].
Qed.

(** The state and the delta of [mergeDelta], pointwise. *)
Lemma mergeDelta_lookup gd other order :
  ranges other order → comparable gd other →
  ∃ gd' delta, mergeDelta gd order = Returns (gd', delta) ∧
    Merge gd order = Returns gd' ∧
    ∀ k, delta !! k = match other !! k with
                      | None => None
                      | Some e => if changes (gd !! k) e then Some e else None
                      end.
Proof.
  intros Hr Hcmp.
  destruct (mergeDelta_loop_NoDup order (ranges_NoDup _ _ Hr) gd ∅)
    as (gd' & delta & Hd & Hm & Hl).
  { intros k e prev Hin Hk. apply (Hcmp k); [done|]. by apply (ranges_elem_of other order). }
  exists gd', delta. split; [done|]. split; [done|]. intros k. rewrite Hl.
  rewrite (ranges_list_to_map _ _ Hr). by rewrite lookup_empty.
Qed.

(** C3: on maps with well-formed timestamps, [mergeDelta] leaves the state
    that [Merge] leaves and returns a delta that holds exactly the pairs
    of [other] that were inserted for an absent key or replaced an entry
    with a strictly smaller timestamp; merging the delta into the
    original state gives the same state as merging [other], and the
    delta is empty exactly when the merge leaves the state unchanged. *)
Theorem mergeDelta_exact gd other order :
  ranges other order → timestamps_ok gd → timestamps_ok other →
  ∃ gd' delta,
    mergeDelta gd order = Returns (gd', delta) ∧
    Merge gd order = Returns gd' ∧
    (∀ k e, delta !! k = Some e ↔
       other !! k = Some e ∧
       (gd !! k = None ∨
        ∃ prev pts ets, gd !! k = Some prev ∧ entry_time prev = Some pts ∧
          entry_time e = Some ets ∧ pts < ets)) ∧
    (∀ dorder, ranges delta dorder → Merge gd dorder = Returns gd') ∧
    (delta = ∅ ↔ gd' = gd).
Proof.
  intros Hr Hg Ho.
  pose proof (timestamps_ok_comparable gd other Hg Ho) as Hcmp.
  destruct (mergeDelta_lookup gd other order Hr Hcmp) as (gd' & delta & Hd & Hm & Hl).
  destruct (Merge_lookup gd other order Hr Hcmp) as (gd2 & Hm2 & Hl2).
  rewrite Hm in Hm2. injection Hm2 as <-.
  assert (Hexact : ∀ k e, delta !! k = Some e ↔
       other !! k = Some e ∧
       (gd !! k = None ∨
        ∃ prev pts ets, gd !! k = Some prev ∧ entry_time prev = Some pts ∧
          entry_time e = Some ets ∧ pts < ets)).
  { intros k e. rewrite Hl. destruct (other !! k) as [e'|] eqn:He'.
    - unfold changes. destruct (gd !! k) as [prev|] eqn:Hk.
      + destruct (Hg k prev Hk) as [pts Hp]. destruct (Ho k e' He') as [ets Het].
        rewrite Hp, Het. destruct (Z.ltb_spec pts ets) as [Hlt|Hge].
        * split.
          -- intros [= ->]. split; [done|]. right. by exists prev, pts, ets.
          -- by intros [[= ->] _].
        * split; [done|]. intros [[= ->] [?|(p & pt & et & ? & ? & ? & ?)]]; [done|].
          simplify_eq. lia.
      + split.
        * intros [= ->]. split; [done|]. by left.
        * by intros [[= ->] _].
    - split; [done|]. by intros [? _]. }
  exists gd', delta. split; [done|]. split; [done|]. split; [exact Hexact|]. split.
  - intros dorder Hdr.
    assert (comparable gd delta) as Hcd.
    { intros k prev e Hk He. apply Hexact in He as [He _]. by apply (Hcmp k). }
    destruct (Merge_lookup gd delta dorder Hdr Hcd) as (gd3 & Hm3 & Hl3).
    rewrite Hm3. f_equal. apply map_eq. intros k. rewrite Hl3, Hl2, Hl.
    destruct (other !! k) as [e|]; [|done].
    rewrite lww_opt_changes. destruct (changes (gd !! k) e) eqn:Hc.
    + by rewrite lww_opt_changes, Hc.
    + unfold changes in Hc. destruct (gd !! k) as [prev|]; [done|discriminate].
  - split.
    + intros ->. apply map_eq. intros k. rewrite Hl2.
      specialize (Hl k). rewrite lookup_empty in Hl.
      destruct (other !! k) as [e|]; [|done].
      rewrite lww_opt_changes. destruct (changes (gd !! k) e) eqn:Hc; [done|].
      unfold changes in Hc. destruct (gd !! k) as [prev|]; [done|discriminate].
    + intros ->. apply map_eq. intros k. rewrite lookup_empty.
      destruct (delta !! k) as [e|] eqn:Hdk; [|done]. exfalso.
      apply Hexact in Hdk as [He Hch]. specialize (Hl2 k). rewrite He in Hl2.
      destruct Hch as [Hk|(prev & pts & ets & Hk & Hp & Het & Hlt)].
      * rewrite Hk in Hl2. done.
      * rewrite Hk in Hl2. simpl in Hl2. unfold lww in Hl2. rewrite Hp, Het in Hl2.
        apply Z.ltb_lt in Hlt as Hlt'. rewrite Hlt' in Hl2. simplify_eq. lia.
Qed.
End merge_delta_properties.

Section merge_algebra.
Context `{ReceiverSchema}.
Local Abbreviation gossipData := (gmap string pb.MeshEntry).
Implicit Types a b c gd other : gossipData.
Implicit Types order : list (string * pb.MeshEntry).

Lemma lww_either prev e : lww prev e = prev ∨ lww prev e = e.
Proof.
  unfold lww. destruct (entry_time prev), (entry_time e); auto.
  case (_ <? _); auto.
Qed.

Lemma Merge_timestamps_ok gd other gd' :
  timestamps_ok gd → timestamps_ok other →
  (∀ k, gd' !! k = match other !! k with
                   | None => gd !! k
                   | Some e => Some (lww_opt (gd !! k) e)
                   end) →
  timestamps_ok gd'.
Proof.
  intros Hg Ho Hl k e. rewrite Hl.
  destruct (other !! k) as [e'|] eqn:He'; [|apply Hg].
  intros [= <-]. destruct (gd !! k) as [prev|] eqn:Hk; simpl; [|by eapply Ho].
  destruct (lww_either prev e') as [-> | ->]; [by eapply Hg | by eapply Ho].
Qed.

(** Ties keep the incumbent, so the pick is associative whatever the
    timestamps are. *)
Lemma lww_assoc x y z tx ty tz :
  entry_time x = Some tx → entry_time y = Some ty → entry_time z = Some tz →
  lww (lww x y) z = lww x (lww y z).
Proof.
  intros Hx Hy Hz. unfold lww. rewrite Hx, Hy, Hz.
  destruct (Z.ltb_spec tx ty), (Z.ltb_spec ty tz);
    rewrite ?Hx, ?Hy, ?Hz;
    repeat match goal with
           | |- context [?u <? ?v] => destruct (Z.ltb_spec u v)
           end; try done; lia.
Qed.

(** With a consistent clock the pick does not depend on which entry is
    the incumbent. *)
Lemma lww_comm x y tx ty :
  entry_time x = Some tx → entry_time y = Some ty →
  (tx = ty → x = y) → lww x y = lww y x.
Proof.
  intros Hx Hy Heq. unfold lww. rewrite Hx, Hy.
  destruct (Z.ltb_spec tx ty), (Z.ltb_spec ty tx); try done; try lia.
  apply Heq. lia.
Qed.

Lemma lww_idem x : lww x x = x.
Proof.
  unfold lww. destruct (entry_time x); [|done]. by rewrite Z.ltb_irrefl.
Qed.

(** C4: on maps with well-formed timestamps, [Merge] is commutative when
    the two maps come from a consistent clock, associative, and
    idempotent, whatever the orders in which the maps are visited; the
    resulting maps are equal, that is, equal at every key. *)
Theorem Merge_commutative_associative_idempotent a b c oa ob oc :
  timestamps_ok a → timestamps_ok b → timestamps_ok c →
  consistent_clock a b →
  ranges a oa → ranges b ob → ranges c oc →
  (∃ m, Merge a ob = Returns m ∧ Merge b oa = Returns m) ∧
  (∃ ab bc m,
      Merge a ob = Returns ab ∧ Merge ab oc = Returns m ∧
      Merge b oc = Returns bc ∧
      ∀ obc, ranges bc obc → Merge a obc = Returns m) ∧
  Merge a oa = Returns a.
Proof.
  intros Ha Hb Hc Hclock Hoa Hob Hoc.
  destruct (Merge_lookup a b ob Hob (timestamps_ok_comparable _ _ Ha Hb))
    as (ab & Hab & Lab).
  destruct (Merge_lookup b a oa Hoa (timestamps_ok_comparable _ _ Hb Ha))
    as (ba & Hba & Lba).
  destruct (Merge_lookup b c oc Hoc (timestamps_ok_comparable _ _ Hb Hc))
    as (bc & Hbc & Lbc).
  pose proof (Merge_timestamps_ok a b ab Ha Hb Lab) as Hab_ok.
  pose proof (Merge_timestamps_ok b c bc Hb Hc Lbc) as Hbc_ok.
  destruct (Merge_lookup ab c oc Hoc (timestamps_ok_comparable _ _ Hab_ok Hc))
    as (m & Hm & Lm).
  destruct (Merge_lookup a a oa Hoa (timestamps_ok_comparable _ _ Ha Ha))
    as (aa & Haa & Laa).
  repeat split.
  - exists ab. split; [done|]. rewrite Hba. f_equal. apply map_eq. intros k.
    rewrite Lab, Lba.
    destruct (a !! k) as [x|] eqn:Hx, (b !! k) as [y|] eqn:Hy; simpl; try done.
    destruct (Ha k x Hx) as [tx Htx]. destruct (Hb k y Hy) as [ty Hty].
    f_equal. symmetry. apply (lww_comm x y tx ty); [done..|].
    intros ->. apply (Hclock k); [done..|]. by rewrite Htx, Hty.
  - exists ab, bc, m. repeat split; [done..|]. intros obc Hobc.
    destruct (Merge_lookup a bc obc Hobc (timestamps_ok_comparable _ _ Ha Hbc_ok))
      as (m' & Hm' & Lm').
    rewrite Hm'. f_equal. apply map_eq. intros k.
    rewrite Lm', Lm, Lbc, Lab.
    destruct (a !! k) as [x|] eqn:Hx, (b !! k) as [y|] eqn:Hy,
             (c !! k) as [z|] eqn:Hz; simpl; try done.
    destruct (Ha k x Hx) as [tx Htx]. destruct (Hb k y Hy) as [ty Hty].
    destruct (Hc k z Hz) as [tz Htz].
    f_equal. symmetry. by apply (lww_assoc x y z tx ty tz).
  - rewrite Haa. f_equal. apply map_eq. intros k. rewrite Laa.
    destruct (a !! k) as [x|]; simpl; [|done]. by rewrite lww_idem.
Qed.
End merge_algebra.

Section log_properties.
Context `{ReceiverSchema}.
Local Abbreviation gossipData := (gmap string pb.MeshEntry).
Implicit Types st : gossipData.

(** A representable instant converts to a protocol timestamp that
    converts back to the same instant. *)
Lemma TimestampProto_representable t :
  representable t →
  ∃ ts, ptypes.TimestampProto t = (Some ts, None) ∧
        ptypes.Timestamp (Some ts) = (t, None).
Proof.
  unfold representable, ptypes.minValidSeconds, ptypes.maxValidSeconds.
  intros [Hlo Hhi].
  exists (tspb.mkTimestamp (time.ToUnix t) (time.Sub t (time.Unix (time.ToUnix t) 0))).
  assert (ptypes.validateTimestamp
            (Some (tspb.mkTimestamp (time.ToUnix t)
                     (time.Sub t (time.Unix (time.ToUnix t) 0)))) = None) as Hv.
  { unfold ptypes.validateTimestamp, ptypes.minValidSeconds, ptypes.maxValidSeconds,
      time.ToUnix, time.Sub, time.Unix. simpl.
    pose proof (Z.div_mod t 1000000000 ltac:(lia)) as Hdm.
    pose proof (Z.mod_pos_bound t 1000000000 ltac:(lia)) as Hm.
    destruct (Z.ltb_spec (t / 1000000000) (-62135596800)); [lia|].
    destruct (Z.leb_spec 253402300800 (t / 1000000000)); [lia|].
    destruct (Z.ltb_spec (t - (t / 1000000000 * 1000000000 + 0)) 0); [lia|].
    destruct (Z.leb_spec 1000000000 (t - (t / 1000000000 * 1000000000 + 0))); [lia|].
    done. }
  split.
  - unfold ptypes.TimestampProto. cbv zeta. by rewrite Hv.
  - unfold ptypes.Timestamp. rewrite Hv. f_equal. simpl.
    unfold time.Unix, time.Sub, time.ToUnix. lia.
Qed.

Lemma TimestampProto_unrepresentable t :
  ¬ representable t → ∃ err, ptypes.TimestampProto t = (None, Some err).
Proof.
  unfold representable, ptypes.minValidSeconds, ptypes.maxValidSeconds. intros Hn.
  unfold ptypes.TimestampProto. cbv zeta.
  destruct (ptypes.validateTimestamp _) as [err|] eqn:Hv; [by exists err|].
  exfalso. apply Hn. revert Hv.
  unfold ptypes.validateTimestamp, ptypes.minValidSeconds, ptypes.maxValidSeconds,
    time.ToUnix. simpl.
  pose proof (Z.div_mod t 1000000000 ltac:(lia)) as Hdm.
  pose proof (Z.mod_pos_bound t 1000000000 ltac:(lia)) as Hm.
  destruct (Z.ltb_spec (t / 1000000000) (-62135596800)); [done|].
  destruct (Z.leb_spec 253402300800 (t / 1000000000)); [done|]. lia.
Qed.

Lemma entry_time_Timestamp (prev : pb.MeshEntry) t :
  entry_time prev = Some t →
  ∃ pe, pb.MeshEntry_Entry prev = Some pe ∧
        ptypes.Timestamp (pb.Timestamp pe) = (t, None).
Proof.
  unfold entry_time. destruct (pb.MeshEntry_Entry prev) as [pe|]; [|done].
  destruct (ptypes.Timestamp (pb.Timestamp pe)) as [t' [err|]] eqn:Ht; [done|].
  intros [= ->]. by exists pe.
Qed.

(** An append that finds an entry strictly after [now] changes nothing. *)
Lemma log_keeps_newer now retention st r gkey ghash resolved :
  has_newer_entry st (stateKey gkey r) now →
  log now retention st r gkey ghash resolved = Returns (st, None).
Proof.
  intros (prev & t & Hk & Ht & Hlt). unfold log. rewrite Hk.
  destruct (entry_time_Timestamp prev t Ht) as (pe & -> & ->).
  unfold time.After. by apply Z.ltb_lt in Hlt as ->.
Qed.

(** An append that finds no such entry stores the new one, when the
    incumbent is well-formed and the instants are representable. *)
Lemma log_stores now retention st r gkey ghash resolved :
  (∀ prev, st !! stateKey gkey r = Some prev → is_Some (entry_time prev)) →
  representable now → representable (time.Add now retention) →
  ¬ has_newer_entry st (stateKey gkey r) now →
  ∃ st', log now retention st r gkey ghash resolved = Returns (st', None) ∧
         appended now retention st r gkey ghash resolved st'.
Proof.
  intros Hprev Hnow Hexp Hnot.
  destruct (TimestampProto_representable now Hnow) as (ts & Hts & Hback).
  destruct (TimestampProto_representable _ Hexp) as (expts & Hets & Heback).
  assert (Hstore : ∃ st',
    match ptypes.TimestampProto now with
    | (_, Some err) => Returns (st, Some err)
    | (ts, None) =>
      match ptypes.TimestampProto (time.Add now retention) with
      | (_, Some err) => Returns (st, Some err)
      | (expts, None) =>
        Returns (<[stateKey gkey r := pb.mkMeshEntry
                           (Some (pb.mkEntry gkey r ghash resolved ts))
                           expts]> st, None)
      end
    end = Returns (st', None) ∧ appended now retention st r gkey ghash resolved st').
  { rewrite Hts, Hets. eexists. split; [done|]. by exists ts, expts. }
  unfold log.
  destruct (st !! stateKey gkey r) as [prev|] eqn:Hk; [|done].
  destruct (Hprev prev eq_refl) as [t Ht].
  destruct (entry_time_Timestamp prev t Ht) as (pe & -> & ->).
  unfold time.After. destruct (Z.ltb_spec now t) as [Hlt|Hge]; [|done].
  exfalso. apply Hnot. by exists prev, t.
Qed.

(** C2 (as amended): when the entry the state holds for the key, if any,
    carries a well-formed timestamp and both [now] and [now + retention]
    are representable instants, an append for which the state holds an
    entry with a timestamp strictly after [now] returns nil and leaves the
    state unchanged, and every other append stores for the key a new mesh
    entry with timestamp [now] and expiry [now + retention]. *)
Theorem log_keeps_newer_or_appends now retention st r gkey ghash resolved :
  (∀ prev, st !! stateKey gkey r = Some prev → is_Some (entry_time prev)) →
  representable now → representable (time.Add now retention) →
  log_claim now retention st r gkey ghash resolved.
Proof.
  intros Hprev Hnow Hexp. unfold log_claim. split.
  - intros Hnewer. by apply log_keeps_newer.
  - intros Hnot. destruct (log_stores now retention st r gkey ghash resolved)
      as (st' & Hlog & Happ); [done..|].
    exists st'. by split.
Qed.

(** An append that fails, and one that finds a newer entry, leave the
    state as it was. *)
Lemma log_error_keeps_state now retention st r gkey ghash resolved st' err :
  log now retention st r gkey ghash resolved = Returns (st', Some err) → st' = st.
Proof.
  unfold log.
  destruct (st !! stateKey gkey r) as [prev|];
    [destruct (pb.MeshEntry_Entry prev) as [pe|]; [|done];
     destruct (ptypes.Timestamp (pb.Timestamp pe)) as [prevts [e|]];
     [by intros [= <- _]|]; destruct (time.After prevts now); [done|] |];
    destruct (ptypes.TimestampProto now) as [ts [e1|]]; try (by intros [= <- _]);
    destruct (ptypes.TimestampProto (time.Add now retention)) as [ets [e2|]];
    try (by intros [= <- _]); done.
Qed.
End log_properties.

Section GC_properties.
Context `{ReceiverSchema}.
Local Abbreviation gossipData := (gmap string pb.MeshEntry).
Implicit Types st : gossipData.
Implicit Types order todo pre post : list (string * pb.MeshEntry).

Lemma expiry_time_Timestamp (e : pb.MeshEntry) t :
  expiry_time e = Some t → ptypes.Timestamp (pb.ExpiresAt e) = (t, None).
Proof.
  unfold expiry_time.
  destruct (ptypes.Timestamp (pb.ExpiresAt e)) as [t' [err|]]; [done|]. by intros [= ->].
Qed.

Lemma expired_count_cons now k e todo :
  expired_count now ((k, e) :: todo) =
  (if expired now e then 1 else 0) + expired_count now todo.
Proof.
  unfold expired_count, len. simpl. destruct (expired now e); simpl; lia.
Qed.

(** The loop over entries that are all still in the state and all carry
    a well-formed expiry. *)
Lemma GC_loop_complete now todo :
  NoDup todo.*1 → ∀ st n,
  (∀ k e, (k, e) ∈ todo → st !! k = Some e ∧ is_Some (expiry_time e)) →
  ∃ st', GC_loop now st n todo = (st', n + expired_count now todo, None) ∧
    (∀ k, st' !! k =
       match (list_to_map todo : gossipData) !! k with
       | Some e => if expired now e then None else Some e
       | None => st !! k
       end) ∧
    Z.of_nat (size st') = Z.of_nat (size st) - expired_count now todo.
Proof.
  induction todo as [|[k e] rest IH]; intros Hnd st n Hin.
  - exists st. unfold expired_count, len. simpl. repeat split; [f_equal; f_equal; lia | lia].
  - apply NoDup_cons in Hnd as [Hk Hnd].
    destruct (Hin k e ltac:(left)) as [Hst [t Ht]].
    rewrite expired_count_cons. cbn [GC_loop]. rewrite (expiry_time_Timestamp e t Ht).
    unfold expired. rewrite Ht. unfold time.After.
    assert (Hrest : ∀ st1, (∀ k', k' ≠ k → st1 !! k' = st !! k') →
              ∀ k' e', (k', e') ∈ rest → st1 !! k' = Some e' ∧ is_Some (expiry_time e')).
    { intros st1 Hsame k' e' Hin'. assert (k' ≠ k) as Hne.
      { intros ->. apply Hk. apply list_elem_of_fmap. by exists (k, e'). }
      rewrite Hsame by done. apply Hin. by right. }
    destruct (now <? t) eqn:Hlt; simpl.
    + destruct (IH Hnd st n (Hrest st ltac:(done))) as (st' & Hg & Hl & Hs).
      exists st'. split; [rewrite Hg; f_equal; f_equal; lia|]. split; [|lia].
      intros k'. rewrite Hl. destruct (decide (k' = k)) as [->|Hne].
      * rewrite (not_elem_of_list_to_map_1 rest k) by done.
        rewrite lookup_insert_eq. unfold expired. by rewrite Ht, Hlt.
      * by rewrite lookup_insert_ne by done.
    + destruct (IH Hnd (delete k st) (n + 1)) as (st' & Hg & Hl & Hs).
      { apply Hrest. intros k' Hne. by rewrite lookup_delete_ne. }
      exists st'. split; [rewrite Hg; f_equal; f_equal; lia|]. split.
      * intros k'. rewrite Hl. destruct (decide (k' = k)) as [->|Hne].
        -- rewrite (not_elem_of_list_to_map_1 rest k) by done.
           rewrite lookup_insert_eq, lookup_delete_eq. unfold expired. by rewrite Ht, Hlt.
        -- by rewrite lookup_insert_ne, lookup_delete_ne by done.
      * rewrite Hs, map_size_delete_Some by done.
        assert (size st ≠ 0%nat); [|lia].
        intros Hz. apply map_size_empty_inv in Hz. by rewrite Hz, lookup_empty in Hst.
Qed.

(** The loop runs through a prefix of well-formed entries as if the
    rest were not there. *)
Lemma GC_loop_app now pre : ∀ st n st1 n1 rest,
  GC_loop now st n pre = (st1, n1, None) →
  GC_loop now st n (pre ++ rest) = GC_loop now st1 n1 rest.
Proof.
  induction pre as [|[k e] pre IH]; intros st n st1 n1 rest; cbn [GC_loop app].
  - by intros [= -> ->].
  - destruct (ptypes.Timestamp (pb.ExpiresAt e)) as [ets [err|]]; [done|].
    destruct (negb (time.After ets now)); apply IH.
Qed.

(** C5: on a state whose expiries are well-formed, [GC] at [now] returns
    without error, deletes exactly the keys whose expiry is not strictly
    after [now], returns the number of deletions, and leaves only entries
    whose expiry is strictly after [now]; with retention 0, an entry
    appended at [now] is deleted by a [GC] run at the same [now]. *)
Theorem GC_deletes_expired now st order :
  ranges st order → expiries_ok st →
  (∃ st' n, GC now st order = (st', n, None) ∧
     (∀ k, st' !! k = match st !! k with
                      | Some e => if expired now e then None else Some e
                      | None => None
                      end) ∧
     n = expired_count now order ∧
     Z.of_nat (size st') = Z.of_nat (size st) - n ∧
     (∀ k e, st' !! k = Some e → ∃ t, expiry_time e = Some t ∧ now < t)) ∧
  (∀ r gkey ghash resolved,
     representable now →
     (∀ prev, st !! stateKey gkey r = Some prev → is_Some (entry_time prev)) →
     ¬ has_newer_entry st (stateKey gkey r) now →
     ∃ st1, log now 0 st r gkey ghash resolved = Returns (st1, None) ∧
       appended now 0 st r gkey ghash resolved st1 ∧
       ∀ order1, ranges st1 order1 →
         ∃ st2 n2, GC now st1 order1 = (st2, n2, None) ∧
                   st2 !! stateKey gkey r = None).
Proof.
  intros Hr Hok.
  assert (Hgen : ∀ st0 order0, ranges st0 order0 → expiries_ok st0 →
    ∃ st' n, GC now st0 order0 = (st', n, None) ∧
     (∀ k, st' !! k = match st0 !! k with
                      | Some e => if expired now e then None else Some e
                      | None => None
                      end) ∧
     n = expired_count now order0 ∧
     Z.of_nat (size st') = Z.of_nat (size st0) - n ∧
     (∀ k e, st' !! k = Some e → ∃ t, expiry_time e = Some t ∧ now < t)).
  { clear. intros st order Hr Hok.
    destruct (GC_loop_complete now order (ranges_NoDup _ _ Hr) st 0) as (st' & Hg & Hl & Hs).
    { intros k e Hin. apply (ranges_elem_of st order) in Hin; [|done].
      split; [done|]. by eapply Hok. }
    rewrite (ranges_list_to_map _ _ Hr) in Hl.
    assert (Hl' : ∀ k, st' !! k = match st !! k with
                      | Some e => if expired now e then None else Some e
                      | None => None
                      end).
    { intros k. rewrite Hl. by destruct (st !! k). }
    exists st', (expired_count now order). unfold GC. rewrite Hg.
    split; [f_equal; f_equal; lia|]. split; [done|]. split; [done|]. split; [done|].
    intros k e. rewrite Hl'. destruct (st !! k) as [e'|] eqn:Hk; [|done].
    destruct (expired now e') eqn:Hexp; [done|]. intros [= <-].
    destruct (Hok k e' Hk) as [t Ht]. exists t. split; [done|].
    unfold expired in Hexp. rewrite Ht in Hexp.
    destruct (Z.ltb_spec now t); [done|discriminate]. }
  split; [by apply Hgen|].
  intros r gkey ghash resolved Hnow Hprev Hnewer.
  assert (representable (time.Add now 0)) as Hnow0.
  { unfold time.Add. by rewrite Z.add_0_r. }
  destruct (log_stores now 0 st r gkey ghash resolved Hprev Hnow Hnow0 Hnewer)
    as (st1 & Hlog & Hst1). exists st1. split; [done|]. split; [done|].
  destruct Hst1 as (ts & expts & -> & Hts & Hexpts).
  intros order1 Hr1.
  destruct (Hgen _ order1 Hr1) as (st2 & n2 & Hg & Hl & _).
  { intros k e. destruct (decide (k = stateKey gkey r)) as [->|Hne].
    - rewrite lookup_insert_eq. intros [= <-]. unfold expiry_time. simpl pb.ExpiresAt.
      rewrite Hexpts. by eexists.
    - rewrite lookup_insert_ne by done. apply Hok. }
  exists st2, n2. split; [done|]. rewrite Hl, lookup_insert_eq.
  unfold expired, expiry_time. simpl pb.ExpiresAt. rewrite Hexpts.
  unfold time.Add. rewrite Z.add_0_r. by rewrite Z.ltb_irrefl.
Qed.

(** C10: [GC] is not atomic on error. When the entry visited after [pre]
    carries a malformed expiry, [GC] returns the validation error at
    once; the expired entries among [pre] stay deleted, every other
    entry stays in the state, and the count is the number of those
    deletions. *)
Theorem GC_partial_on_malformed_expiry now st order pre k le post err :
  ranges st order → order = pre ++ (k, le) :: post →
  (∀ k' e', (k', e') ∈ pre → is_Some (expiry_time e')) →
  ptypes.validateTimestamp (pb.ExpiresAt le) = Some err →
  ∃ st' n, GC now st order = (st', n, Some err) ∧
    (∀ k' e', (k', e') ∈ pre → expired now e' = true → st' !! k' = None) ∧
    (∀ k' e', st !! k' = Some e' →
       ((k', e') ∈ pre → expired now e' = false) → st' !! k' = Some e') ∧
    n = expired_count now pre ∧
    Z.of_nat (size st') = Z.of_nat (size st) - n.
Proof.
  intros Hr -> Hpre Hbad.
  pose proof (ranges_NoDup _ _ Hr) as Hnd.
  rewrite fmap_app in Hnd. apply NoDup_app in Hnd as (Hndpre & _ & _).
  destruct (GC_loop_complete now pre Hndpre st 0) as (st1 & Hg & Hl & Hs).
  { intros k' e' Hin. split; [|by eapply Hpre].
    apply (ranges_elem_of st _ k' e' Hr). apply elem_of_app. by left. }
  exists st1, (expired_count now pre). unfold GC.
  rewrite (GC_loop_app now pre st 0 st1 (0 + expired_count now pre)) by done.
  cbn [GC_loop]. unfold ptypes.Timestamp. rewrite Hbad.
  split; [f_equal; f_equal; lia|].
  assert (Hin_pre : ∀ k' e', (k', e') ∈ pre ↔
            (list_to_map pre : gossipData) !! k' = Some e').
  { intros k' e'. by apply elem_of_list_to_map. }
  split; [|split; [|split; [done|lia]]].
  - intros k' e' Hin Hexp. rewrite Hl. apply Hin_pre in Hin. by rewrite Hin, Hexp.
  - intros k' e' Hk Hkeep. rewrite Hl.
    destruct (list_to_map pre !! k') as [e''|] eqn:Hlk; [|done].
    apply Hin_pre in Hlk as Hin.
    assert (e'' = e') as ->.
    { assert (st !! k' = Some e'') as Hk'.
      { apply (ranges_elem_of st _ k' e'' Hr). apply elem_of_app. by left. }
      congruence. }
    by rewrite (Hkeep Hin).
Qed.
End GC_properties.

Section Query_properties.
Context `{ReceiverSchema}.
Local Abbreviation gossipData := (gmap string pb.MeshEntry).
Implicit Types st : gossipData.

(** The two parameters that the package exports set their field and
    never fail. *)
Lemma QReceiver_sets r q : QReceiver r q = (mkQuery r (groupKey q), None).
Proof. reflexivity. Qed.

Lemma QGroupKey_sets gk q : QGroupKey gk q = (mkQuery (recv q) gk, None).
Proof. reflexivity. Qed.

Lemma apply_params_exported params :
  Forall (λ p, (∃ r, p = QReceiver r) ∨ (∃ gk, p = QGroupKey gk)) params →
  ∀ q, ∃ q', apply_params params q = (q', None).
Proof.
  induction 1 as [|p params [[r ->]|[gk ->]] _ IH]; intros q; simpl; eauto.
Qed.

(** C6: for parameters that leave the query descriptor [q], a query
    without a receiver or without a group key fails with the "no query
    parameters" error and returns no entry; with both set it returns
    exactly the entry stored under the composite key, or no entry and the
    [ErrNotFound] sentinel, which is a different error. *)
Theorem Query_by_composite_key st params q :
  apply_params params (mkQuery None None) = (q, None) →
  ErrNotFound ≠ errNoQueryParams ∧
  (recv q = None ∨ groupKey q = None →
     Query st params = ([], Some errNoQueryParams)) ∧
  (∀ r gk, recv q = Some r → groupKey q = Some gk →
     match st !! stateKey gk (Some r) with
     | Some le => Query st params = ([pb.MeshEntry_Entry le], None)
     | None => Query st params = ([], Some ErrNotFound)
     end).
Proof.
  intros Hq. split; [done|]. unfold Query. rewrite Hq. split.
  - intros [-> | Hgk]; [done|]. rewrite Hgk. by destruct (recv q).
  - intros r gk -> ->. by destruct (st !! stateKey gk (Some r)).
Qed.
End Query_properties.

Section stateKey_properties.
Context `{ReceiverSchema}.

Lemma list_ascii_of_string_app s1 s2 :
  list_ascii_of_string (s1 +:+ s2) = list_ascii_of_string s1 ++ list_ascii_of_string s2.
Proof. induction s1 as [|c s1 IH]; simpl; [done|]. by rewrite IH. Qed.

Lemma list_ascii_of_string_inj s1 s2 :
  list_ascii_of_string s1 = list_ascii_of_string s2 → s1 = s2.
Proof.
  intros Heq. rewrite <- (string_of_list_ascii_of_string s1),
    <- (string_of_list_ascii_of_string s2). by rewrite Heq.
Qed.

(** A list splits in one way only at the first occurrence of [c]. *)
Lemma split_at_first {A} (c : A) (l1 l2 t1 t2 : list A) :
  c ∉ l1 → c ∉ l2 → l1 ++ c :: t1 = l2 ++ c :: t2 → l1 = l2 ∧ t1 = t2.
Proof.
  revert l2. induction l1 as [|x l1 IH]; intros [|y l2] H1 H2 Heq; simpl in Heq.
  - by injection Heq as ->.
  - injection Heq as -> _. exfalso. apply H2. left.
  - injection Heq as -> _. exfalso. apply H1. left.
  - injection Heq as -> Heq. apply not_elem_of_cons in H1 as [_ H1].
    apply not_elem_of_cons in H2 as [_ H2].
    destruct (IH l2 H1 H2 Heq) as [-> ->]. done.
Qed.

(** And in one way only at the last occurrence. *)
Lemma split_at_last {A} (c : A) (l1 l2 t1 t2 : list A) :
  c ∉ t1 → c ∉ t2 → l1 ++ c :: t1 = l2 ++ c :: t2 → l1 = l2 ∧ t1 = t2.
Proof.
  intros H1 H2 Heq. apply (f_equal reverse) in Heq.
  rewrite !reverse_app, !reverse_cons, <- !app_assoc in Heq. simpl in Heq.
  apply split_at_first in Heq as [Ht Hl]; [|by rewrite elem_of_reverse..].
  split; [by apply (inj reverse) | by apply (inj reverse)].
Qed.

(** Where the separator occurs in neither canonical form, two pairs that
    differ in the group key or in the canonical form of the receiver have
    different keys. *)
Theorem stateKey_injective gk1 r1 gk2 r2 :
  separator_free (Receiver_String r1) → separator_free (Receiver_String r2) →
  gk1 ≠ gk2 ∨ Receiver_String r1 ≠ Receiver_String r2 →
  stateKey gk1 r1 ≠ stateKey gk2 r2.
Proof.
  unfold separator_free, stateKey. intros H1 H2 Hdiff Heq.
  apply (f_equal list_ascii_of_string) in Heq.
  rewrite !list_ascii_of_string_app in Heq. simpl in Heq.
  apply split_at_last in Heq as [Hgk Hr]; [|done..].
  apply list_ascii_of_string_inj in Hgk, Hr. by destruct Hdiff.
Qed.
End stateKey_properties.

Section varint_properties.

Lemma land_128_final b : 0 ≤ b < 128 → Z.land b 128 = 0.
Proof.
  intros Hb. assert (b = Z.land b 127) as ->.
  { change 127 with (Z.ones 7). rewrite Z.land_ones by lia.
    symmetry. apply Z.mod_small. change (2 ^ 7) with 128. lia. }
  rewrite <- Z.land_assoc. change (Z.land 127 128) with 0. apply Z.land_0_r.
Qed.

Lemma land_127_final b : 0 ≤ b < 128 → Z.land b 127 = b.
Proof.
  intros Hb. change 127 with (Z.ones 7). rewrite Z.land_ones by lia.
  apply Z.mod_small. change (2 ^ 7) with 128. lia.
Qed.

Lemma land_128_continued a : Z.land (Z.lor a 128) 128 ≠ 0.
Proof.
  rewrite Z.land_lor_distr_l. change (Z.land 128 128) with 128.
  intros H0. apply Z.lor_eq_0_iff in H0 as [_ ?]. done.
Qed.

Lemma land_127_continued x : Z.land (Z.lor (x mod 256) 128) 127 = x mod 128.
Proof.
  rewrite Z.land_lor_distr_l. change (Z.land 128 127) with 0. rewrite Z.lor_0_r.
  change 127 with (Z.ones 7). rewrite Z.land_ones by lia. change (2 ^ 7) with 128.
  apply Z.mod_mod_divide. by exists 2.
Qed.

Lemma low_high_bits x : 0 ≤ x → Z.lor (x mod 128) (Z.shiftl (Z.shiftr x 7) 7) = x.
Proof.
  intros Hx. change 128 with (2 ^ 7). rewrite <- Z.land_ones by lia.
  rewrite <- Z.ldiff_ones_r by lia. rewrite Z.lor_comm. apply Z.lor_ldiff_and.
Qed.

(** Decoding the bytes that [PutUvarint] wrote gives back the number. *)
Lemma DecodeVarint_loop_PutUvarint room : ∀ x header iters shift acc n,
  0 ≤ x → PutUvarint room x = Returns header →
  (length header ≤ iters)%nat → 0 ≤ shift → x * 2 ^ shift < 2 ^ 64 →
  DecodeVarint_loop iters shift header acc n =
    (Z.lor acc (Z.shiftl x shift), n + len header).
Proof.
  induction room as [|room IH]; intros x header iters shift acc n Hx Hput Hit Hs Hb;
    simpl in Hput; [done|].
  assert (0 < 2 ^ shift) as Hpow by (apply Z.pow_pos_nonneg; lia).
  destruct (Z.ltb_spec x 128) as [Hsmall|Hbig].
  - injection Hput as <-. destruct iters as [|iters]; [simpl in Hit; lia|].
    cbn [DecodeVarint_loop]. rewrite land_128_final, land_127_final by lia.
    rewrite Z.mod_small by (rewrite Z.shiftl_mul_pow2 by lia; nia). done.
  - destruct (PutUvarint room (Z.shiftr x 7)) as [rest|] eqn:Hrest; simpl in Hput; [|done].
    injection Hput as <-. destruct iters as [|iters]; [simpl in Hit; lia|].
    simpl in Hit. cbn [DecodeVarint_loop].
    destruct (Z.eqb_spec (Z.land (Z.lor (x mod 256) 128) 128) 0) as [H0|_];
      [by apply land_128_continued in H0|].
    rewrite land_127_continued.
    pose proof (Z.mod_pos_bound x 128 ltac:(lia)) as Hmod.
    pose proof (Z.div_mod x 128 ltac:(lia)) as Hdm.
    assert (Z.shiftr x 7 = x / 128) as Hshr by (by rewrite Z.shiftr_div_pow2 by lia).
    assert (0 ≤ x / 128) as Hdiv by (apply Z.div_pos; lia).
    rewrite Z.mod_small by (rewrite Z.shiftl_mul_pow2 by lia; nia).
    rewrite (IH (Z.shiftr x 7) rest iters (shift + 7)); [|lia|done|lia|lia|].
    + f_equal.
      * rewrite <- Z.lor_assoc. f_equal.
        replace (shift + 7) with (7 + shift) by lia.
        rewrite <- (Z.shiftl_shiftl _ 7 shift) by lia. rewrite <- Z.shiftl_lor.
        by rewrite low_high_bits.
      * unfold len. simpl length. lia.
    + rewrite Hshr, Z.pow_add_r by lia. change (2 ^ 7) with 128. nia.
Qed.

(** The bytes that [PutUvarint] writes: bytes with the continuation bit,
    then one byte without it. *)
Lemma PutUvarint_shape room : ∀ x header,
  0 ≤ x → PutUvarint room x = Returns header →
  ∃ body last, header = body ++ [last] ∧
    Forall (λ b, Z.land b 128 ≠ 0) body ∧ (length header ≤ room)%nat.
Proof.
  induction room as [|room IH]; intros x header Hx Hput; simpl in Hput; [done|].
  destruct (Z.ltb_spec x 128) as [Hsmall|Hbig].
  - injection Hput as <-. exists [], x. repeat split; [constructor | simpl; lia].
  - destruct (PutUvarint room (Z.shiftr x 7)) as [rest|] eqn:Hrest; simpl in Hput; [|done].
    injection Hput as <-.
    destruct (IH (Z.shiftr x 7) rest) as (body & last & -> & Hbody & Hlen);
      [by apply Z.shiftr_nonneg | done |].
    exists (Z.lor (x mod 256) 128 :: body), last. repeat split.
    + constructor; [apply land_128_continued | done].
    + simpl. simpl in Hlen. lia.
Qed.

(** [PutUvarint] stays within a buffer of [S room] bytes for numbers
    below [2 ^ (7 * S room)]. *)
Lemma PutUvarint_returns room : ∀ x,
  0 ≤ x < 2 ^ (7 * Z.of_nat (S room)) →
  ∃ header, PutUvarint (S room) x = Returns header.
Proof.
  induction room as [|room IH]; intros x [Hx Hb].
  - change (2 ^ (7 * Z.of_nat 1)) with 128 in Hb. simpl.
    destruct (Z.ltb_spec x 128); [by eexists | lia].
  - cbn [PutUvarint]. destruct (Z.ltb_spec x 128) as [Hsmall|Hbig]; [by eexists|].
    destruct (IH (Z.shiftr x 7)) as [rest Hrest].
    + rewrite Z.shiftr_div_pow2 by lia. change (2 ^ 7) with 128.
      split; [apply Z.div_pos; lia|].
      apply Z.div_lt_upper_bound; [lia|].
      replace (7 * Z.of_nat (S (S room))) with (7 + 7 * Z.of_nat (S room)) in Hb by lia.
      rewrite Z.pow_add_r in Hb by lia. change (2 ^ 7) with 128 in Hb. lia.
    + cbn [PutUvarint] in Hrest. rewrite Hrest. by eexists.
Qed.

(** What [PutUvarint] wrote in [room] bytes is below [2 ^ (7 * room)]. *)
Lemma PutUvarint_bound room : ∀ x header,
  0 ≤ x → PutUvarint room x = Returns header → x < 2 ^ (7 * Z.of_nat room).
Proof.
  induction room as [|room IH]; intros x header Hx Hput; simpl in Hput; [done|].
  replace (7 * Z.of_nat (S room)) with (7 + 7 * Z.of_nat room) by lia.
  rewrite Z.pow_add_r by lia. change (2 ^ 7) with 128.
  assert (0 < 2 ^ (7 * Z.of_nat room)) by (apply Z.pow_pos_nonneg; lia).
  destruct (Z.ltb_spec x 128) as [Hsmall|Hbig]; [nia|].
  destruct (PutUvarint room (Z.shiftr x 7)) as [rest|] eqn:Hrest; simpl in Hput; [|done].
  apply IH in Hrest; [|by apply Z.shiftr_nonneg].
  rewrite Z.shiftr_div_pow2 in Hrest by lia. change (2 ^ 7) with 128 in Hrest.
  pose proof (Z.div_mod x 128 ltac:(lia)) as Hdm.
  pose proof (Z.mod_pos_bound x 128 ltac:(lia)) as Hmod. nia.
Qed.

(** Bytes that all carry the continuation bit do not decode. *)
Lemma DecodeVarint_loop_incomplete iters : ∀ body shift acc n,
  Forall (λ b, Z.land b 128 ≠ 0) body →
  DecodeVarint_loop iters shift body acc n = (0, 0).
Proof.
  induction iters as [|iters IH]; intros body shift acc n Hbody; [done|].
  destruct Hbody as [|b body Hb Hbody]; [done|]. cbn [DecodeVarint_loop].
  destruct (Z.eqb_spec (Z.land b 128) 0); [done|]. by apply IH.
Qed.

(** The header loop reads a header that [PutUvarint] wrote, and no more. *)
Lemma readHeader_complete body : ∀ pre last room tail x,
  Forall (λ b, Z.land b 128 ≠ 0) pre → Forall (λ b, Z.land b 128 ≠ 0) body →
  DecodeVarint (pre ++ body ++ [last]) = (x, len (pre ++ body ++ [last])) →
  (length body < room)%nat →
  readHeader room pre ((body ++ [last]) ++ tail) =
    (len (pre ++ body ++ [last]), inr (x, tail)).
Proof.
  induction body as [|b body IH]; intros pre last room tail x Hpre Hbody Hdec Hroom.
  - destruct room as [|room]; [simpl in Hroom; lia|]. simpl app. cbn [readHeader].
    simpl app in Hdec. rewrite Hdec.
    destruct (Z.eqb_spec (len (pre ++ [last])) 0) as [H0|_]; [|done].
    unfold len in H0. rewrite length_app in H0. simpl in H0. lia.
  - destruct room as [|room]; [simpl in Hroom; lia|]. simpl in Hroom.
    apply Forall_cons in Hbody as [Hb Hbody].
    change (((b :: body) ++ [last]) ++ tail) with (b :: (body ++ [last]) ++ tail).
    cbn [readHeader]. unfold DecodeVarint at 1.
    rewrite DecodeVarint_loop_incomplete
      by (apply Forall_app; split; [done | by constructor]).
    change (0 =? 0) with true. cbv iota.
    replace (pre ++ (b :: body) ++ [last]) with ((pre ++ [b]) ++ body ++ [last])
      by (by rewrite <- app_assoc).
    apply IH; [apply Forall_app; split; [done | by constructor] | done | | lia].
    rewrite <- app_assoc. exact Hdec.
Qed.

(** A header written into the five-byte buffer is read back. *)
Lemma readHeader_PutUvarint x header tail :
  0 ≤ x → PutUvarint MaxVarintLen32 x = Returns header →
  readHeader MaxVarintLen32 [] (header ++ tail) = (len header, inr (x, tail)).
Proof.
  intros Hx Hput.
  destruct (PutUvarint_shape _ _ _ Hx Hput) as (body & last & Hh & Hbody & Hlen).
  assert (DecodeVarint header = (x, len header)) as Hdec.
  { unfold DecodeVarint.
    rewrite (DecodeVarint_loop_PutUvarint MaxVarintLen32 x header 10 0 0 0);
      [|done|done|unfold MaxVarintLen32 in Hlen; lia|lia|].
    - by rewrite Z.shiftl_0_r, Z.lor_0_l, Z.add_0_l.
    - apply PutUvarint_bound in Hput; [|done]. unfold MaxVarintLen32 in Hput.
      simpl in Hput. lia. }
  subst header. rewrite (readHeader_complete body [] last MaxVarintLen32 tail x);
    [done | constructor | done | done |].
  rewrite length_app in Hlen. simpl in Hlen. unfold MaxVarintLen32 in *. lia.
Qed.
End varint_properties.

Section framing_properties.
Context `{MeshEntryCodec}.
Local Abbreviation gossipData := (gmap string pb.MeshEntry).
Implicit Types order todo : list (string * pb.MeshEntry).

Lemma len_app {A} (l1 l2 : list A) : len (l1 ++ l2) = len l1 + len l2.
Proof. unfold len. rewrite length_app. lia. Qed.

Lemma len_nonneg {A} (l : list A) : 0 ≤ len l.
Proof. unfold len. lia. Qed.

Lemma to_nat_len {A} (l : list A) : Z.to_nat (len l) = length l.
Proof. unfold len. apply Nat2Z.id. Qed.

Lemma round_trips_encodable e : round_trips e → encodable e.
Proof. intros (buffer & ? & ? & _). by exists buffer. Qed.

(** The frame of an encodable entry: its header and its message. *)
Lemma frame_encodable e :
  encodable e →
  ∃ buffer header, Marshal e = inr buffer ∧
    PutUvarint MaxVarintLen32 (len buffer) = Returns header ∧
    frame e = header ++ buffer ∧ 0 < len header.
Proof.
  intros (buffer & Hm & Hlen).
  destruct (PutUvarint_returns 4 (len buffer)) as [header Hput].
  { split; [apply len_nonneg|]. exact Hlen. }
  exists buffer, header. unfold frame. rewrite Hm.
  change (S 4) with MaxVarintLen32 in Hput. rewrite Hput. repeat split.
  destruct (PutUvarint_shape _ _ _ (len_nonneg buffer) Hput) as (body & last & -> & _).
  rewrite len_app. pose proof (len_nonneg body). unfold len at 2. simpl. lia.
Qed.

Lemma frame_nonempty e : encodable e → 0 < len (frame e).
Proof.
  intros He. destruct (frame_encodable e He) as (buffer & header & _ & _ & -> & Hh).
  rewrite len_app. pose proof (len_nonneg buffer). lia.
Qed.

Lemma WriteDelimited_encodable w e :
  encodable e → WriteDelimited w e = Returns (w ++ frame e, len (frame e), None).
Proof.
  intros He. destruct (frame_encodable e He) as (buffer & header & Hm & Hput & -> & _).
  unfold WriteDelimited. rewrite Hm, Hput. simpl. rewrite len_app.
  do 3 f_equal. lia.
Qed.

(** Reading where a frame starts gives the decoded message and leaves
    the reader just after the frame. *)
Lemma ReadDelimited_frame e rest :
  round_trips e → ReadDelimited (frame e ++ rest) = (rest, len (frame e), inr e).
Proof.
  intros (buffer & Hm & Hlen & Hu).
  destruct (frame_encodable e) as (buffer' & header & Hm' & Hput & -> & _);
    [by exists buffer|].
  rewrite Hm in Hm'. injection Hm' as <-.
  unfold ReadDelimited. rewrite <- app_assoc.
  rewrite (readHeader_PutUvarint (len buffer) header (buffer ++ rest));
    [|apply len_nonneg|done].
  unfold io_ReadFull. rewrite len_app.
  destruct (Z.leb_spec (len buffer) (len buffer + len rest)) as [_|Hlt];
    [|pose proof (len_nonneg rest); lia].
  rewrite to_nat_len, take_app_length, drop_app_length.
  rewrite Hu, len_app. done.
Qed.

Lemma frames_cons k e order : frames ((k, e) :: order) = frame e ++ frames order.
Proof. reflexivity. Qed.

Lemma frames_app order1 order2 :
  frames (order1 ++ order2) = frames order1 ++ frames order2.
Proof. unfold frames. apply flat_map_app. Qed.

Lemma frames_length order :
  (∀ k e, (k, e) ∈ order → encodable e) → (length order ≤ length (frames order))%nat.
Proof.
  induction order as [|[k e] order IH]; intros Henc; [done|].
  rewrite frames_cons, length_app. simpl.
  pose proof (frame_nonempty e (Henc k e ltac:(left))) as Hne. unfold len in Hne.
  assert (length order ≤ length (frames order))%nat.
  { apply IH. intros k' e' Hin. apply (Henc k'). by right. }
  lia.
Qed.

(** The decoding loop over the frames of [order], with fuel to spare,
    stores every entry under the composite key of its own fields. *)
Lemma readEntries_frames order : ∀ fuel st,
  (∀ k e, (k, e) ∈ order → round_trips e ∧
     ∃ en, pb.MeshEntry_Entry e = Some en ∧
           k = stateKey (pb.GroupKey en) (pb.Entry_Receiver en)) →
  (length order < fuel)%nat →
  readEntries fuel (frames order) st =
    Some (Returns (foldl (λ acc kv, <[kv.1 := kv.2]> acc) st order, None)).
Proof.
  induction order as [|[k e] order IH]; intros fuel st Hok Hfuel;
    (destruct fuel as [|fuel]; [simpl in Hfuel; lia|]).
  - reflexivity.
  - destruct (Hok k e ltac:(left)) as (Hrt & en & Hen & Hkey).
    rewrite frames_cons. cbn [readEntries]. rewrite (ReadDelimited_frame e _ Hrt).
    rewrite Hen, <- Hkey. simpl in Hfuel.
    rewrite IH; [done | | lia]. intros k' e' Hin. apply Hok. by right.
Qed.

(** Inserting entries with different keys one by one builds the map of
    the list. *)
Lemma foldl_insert_lookup order : ∀ (st : gossipData) k,
  NoDup order.*1 →
  foldl (λ acc kv, <[kv.1 := kv.2]> acc) st order !! k =
    match (list_to_map order : gossipData) !! k with
    | Some e => Some e
    | None => st !! k
    end.
Proof.
  induction order as [|[k' e'] order IH]; intros st k Hnd; [done|].
  apply NoDup_cons in Hnd as [Hk' Hnd]. simpl. rewrite IH by done.
  destruct (decide (k = k')) as [->|Hne].
  - rewrite (not_elem_of_list_to_map_1 order k') by done. by rewrite !lookup_insert_eq.
  - by rewrite !lookup_insert_ne by done.
Qed.

Lemma foldl_insert_ranges (st : gossipData) order :
  ranges st order → foldl (λ acc kv, <[kv.1 := kv.2]> acc) ∅ order = st.
Proof.
  intros Hr. apply map_eq. intros k.
  rewrite foldl_insert_lookup by (by eapply ranges_NoDup).
  rewrite (ranges_list_to_map _ _ Hr), lookup_empty. by destruct (st !! k).
Qed.

Lemma Snapshot_loop_frames order : ∀ w n,
  (∀ k e, (k, e) ∈ order → encodable e) →
  Snapshot_loop w n order = Returns (w ++ frames order, n + len (frames order), None).
Proof.
  induction order as [|[k e] order IH]; intros w n Henc.
  - simpl. rewrite app_nil_r. unfold len. simpl. do 3 f_equal. lia.
  - rewrite frames_cons, len_app, app_assoc.
    cbn [Snapshot_loop]. rewrite WriteDelimited_encodable by (apply (Henc k); left).
    simpl. rewrite IH by (intros k' e' Hin; apply (Henc k'); by right).
    do 3 f_equal. lia.
Qed.
End framing_properties.

Section Encode_properties.
Context `{MeshEntryCodec}.
Local Abbreviation gossipData := (gmap string pb.MeshEntry).
Implicit Types gd st : gossipData.
Implicit Types order todo cur last : list (string * pb.MeshEntry).

Lemma frames_nil_inv order :
  (∀ k e, (k, e) ∈ order → encodable e) → len (frames order) ≤ 0 → order = [].
Proof.
  destruct order as [|[k e] order]; [done|]. intros Henc.
  rewrite frames_cons, len_app.
  pose proof (frame_nonempty e (Henc k e ltac:(left))).
  pose proof (len_nonneg (frames order)). lia.
Qed.

(** The loop of [Encode] cuts the entries into runs, one block each, and
    leaves the last entries in the buffer. *)
Lemma Encode_loop_runs todo : ∀ cur res n,
  (∀ k e, (k, e) ∈ todo → encodable e) → Encode_inv cur n →
  ∃ runs last,
    cur ++ todo = concat runs ++ last ∧
    Encode_loop (frames cur) res n todo =
      Returns (frames last, res ++ map frames runs, n + len (frames todo)) ∧
    Forall block_run runs ∧
    Encode_inv last (n + len (frames todo)) ∧
    (n + len (frames todo) ≤ maxSize → runs = []).
Proof.
  induction todo as [|[k e] todo IH]; intros cur res n Henc Hinv.
  - exists [], cur. simpl. rewrite !app_nil_r. change (len []) with 0.
    rewrite Z.add_0_r. split; [done|]. split; [done|]. split; [constructor|]. by split.
  - pose proof (frame_nonempty e (Henc k e ltac:(left))) as Hne.
    pose proof (len_nonneg (frames todo)) as Hnn.
    assert (Henc' : ∀ k' e', (k', e') ∈ todo → encodable e').
    { intros k' e' Hin. apply (Henc k'). by right. }
    rewrite frames_cons, len_app. cbn [Encode_loop].
    rewrite WriteDelimited_encodable by (apply (Henc k); left). simpl.
    assert (frames cur ++ frame e = frames (cur ++ [(k, e)])) as ->.
    { rewrite frames_app, frames_cons. change (frames []) with (@nil Z).
      by rewrite app_nil_r. }
    destruct (Z.ltb_spec maxSize (n + len (frame e))) as [Hcut|Hkeep].
    + destruct (IH [] (res ++ [frames (cur ++ [(k, e)])]) (n + len (frame e)) Henc')
        as (runs & last & Heq & Hloop & Hruns & Hinv' & Hnone); [by right|].
      exists ((cur ++ [(k, e)]) :: runs), last. simpl in Heq. repeat split.
      * simpl. rewrite <- !app_assoc. simpl. by rewrite Heq.
      * change (frames []) with (@nil Z) in Hloop. rewrite Hloop.
        simpl. rewrite <- app_assoc. simpl. by rewrite Z.add_assoc.
      * constructor; [|done]. exists cur, (k, e). split; [done|].
        destruct Hinv as [[? <-]|[_ ->]]; [done|]. by unfold maxSize.
      * by rewrite Z.add_assoc.
      * intros Hle. lia.
    + destruct (IH (cur ++ [(k, e)]) res (n + len (frame e)) Henc')
        as (runs & last & Heq & Hloop & Hruns & Hinv' & Hnone).
      { left. split; [done|]. destruct Hinv as [[_ ->]|[? _]]; [|lia].
        rewrite frames_app, len_app, frames_cons, len_app.
        change (len (frames [])) with 0. lia. }
      exists runs, last. rewrite <- app_assoc in Heq. simpl in Heq. repeat split.
      * done.
      * rewrite Hloop. by rewrite Z.add_assoc.
      * done.
      * by rewrite Z.add_assoc.
      * intros Hle. apply Hnone. lia.
Qed.

Lemma frames_concat (runs : list (list (string * pb.MeshEntry))) :
  concat (map frames runs) = frames (concat runs).
Proof.
  induction runs as [|run runs IH]; [done|]. simpl. by rewrite IH, frames_app.
Qed.

(** [Encode] returns one block for each run of a cut of the visiting
    order into runs. *)
Lemma Encode_returns_runs order :
  (∀ k e, (k, e) ∈ order → encodable e) →
  ∃ runs, Encode order = Returns (map frames runs) ∧
    concat runs = order ∧ Forall block_run runs ∧
    Forall (λ run, 0 < len (frames run)) runs ∧
    (len (frames order) ≤ maxSize → (length runs ≤ 1)%nat).
Proof.
  intros Henc.
  destruct (Encode_loop_runs order [] [] 0 Henc) as (runs & last & Heq & Hloop & Hruns & Hinv & Hnone).
  { left. by unfold maxSize. }
  simpl in Heq. change (frames []) with (@nil Z) in Hloop.
  rewrite Z.add_0_l in Hinv, Hnone.
  assert (Hruns_ne : Forall (λ run, 0 < len (frames run)) runs).
  { apply Forall_forall. intros run Hin.
    apply (proj1 (Forall_forall _ _) Hruns) in Hin as Hrun.
    destruct Hrun as (front & [k e] & -> & _).
    rewrite frames_app, len_app, frames_cons, len_app.
    assert (encodable e) as He.
    { apply (Henc k). rewrite Heq. apply elem_of_app. left.
      apply list_elem_of_In, in_concat. exists (front ++ [(k, e)]).
      split; [by apply list_elem_of_In|]. apply list_elem_of_In, elem_of_app. right. left. }
    pose proof (frame_nonempty e He). pose proof (len_nonneg (frames front)).
    pose proof (len_nonneg (frames [])). lia. }
  unfold Encode. rewrite Hloop. simpl.
  destruct (Z.ltb_spec 0 (len (frames last))) as [Hlast|Hlast].
  - exists (runs ++ [last]). rewrite map_app. simpl. split; [done|].
    rewrite concat_app. simpl. rewrite app_nil_r. split; [done|].
    assert (block_run last) as Hbr.
    { destruct Hinv as [[Hle Hn]|[_ ->]]; [|change (len (frames [])) with 0 in Hlast; lia].
      destruct last as [|x last _] using rev_ind;
        [change (len (frames [])) with 0 in Hlast; lia|].
      exists last, x. split; [done|].
      rewrite frames_app, len_app in Hn. pose proof (len_nonneg (frames [x])). lia. }
    split; [apply Forall_app; split; [done | by constructor]|].
    split; [apply Forall_app; split; [done | by constructor]|].
    intros Hle. rewrite (Hnone Hle). simpl. lia.
  - assert (last = []) as ->.
    { apply frames_nil_inv; [|done]. intros k e Hin. apply (Henc k).
      rewrite Heq. apply elem_of_app. by right. }
    rewrite app_nil_r in Heq. exists runs. split; [done|].
    split; [done|]. split; [done|]. split; [done|].
    intros Hle. rewrite (Hnone Hle). simpl. lia.
Qed.


(** The blocks of [Encode], put end to end, are the frames of the
    entries in visiting order. *)
Lemma Encode_concat order :
  (∀ k e, (k, e) ∈ order → encodable e) →
  ∃ blocks, Encode order = Returns blocks ∧ concat blocks = frames order.
Proof.
  intros Henc. destruct (Encode_returns_runs order Henc) as (runs & HE & Hcat & _).
  exists (map frames runs). split; [done|]. by rewrite frames_concat, Hcat.
Qed.

(** C8: for a state in which every key is the composite key of its own
    entry and every entry goes through the codec and back, what
    [Snapshot] writes into an empty file is read back by [loadSnapshot]
    as the same map, and the blocks of [Encode], put end to end, are
    decoded by [decodeGossipData] as the same map, however the encoding
    was cut into blocks and in whatever order the state was visited. *)
Theorem Snapshot_Encode_round_trip st order l_st :
  ranges st order → keyed_by_entry st →
  (∀ k e, st !! k = Some e → round_trips e) →
  (∃ w n, Snapshot order [] = Returns (w, n, None) ∧ n = len w ∧
          loadSnapshot l_st w = Some (Returns (st, None))) ∧
  (∃ blocks, Encode order = Returns blocks ∧
             decodeGossipData (concat blocks) = Some (Returns (st, None))).
Proof.
  intros Hr Hkey Hrt.
  assert (Henc : ∀ k e, (k, e) ∈ order → encodable e).
  { intros k e Hin. apply round_trips_encodable, (Hrt k).
    by apply (ranges_elem_of st order). }
  assert (Hread : readEntries (S (length (frames order))) (frames order) ∅ =
                  Some (Returns (st, None))).
  { rewrite readEntries_frames.
    - by rewrite (foldl_insert_ranges st order Hr).
    - intros k e Hin. apply (ranges_elem_of st order k e Hr) in Hin.
      split; [by apply (Hrt k) | by apply Hkey].
    - pose proof (frames_length order Henc). lia. }
  split.
  - exists (frames order), (len (frames order)). unfold Snapshot.
    rewrite Snapshot_loop_frames by done. simpl. split; [done|]. split; [done|].
    unfold loadSnapshot. by rewrite Hread.
  - destruct (Encode_concat order Henc) as (blocks & HE & Hcat).
    exists blocks. split; [done|]. unfold decodeGossipData. by rewrite Hcat.
Qed.


Lemma frame_longer_than_message e buffer :
  Marshal e = inr buffer → len buffer < 2 ^ 35 → len buffer < len (frame e).
Proof.
  intros Hm Hlen. destruct (frame_encodable e) as (buffer' & header & Hm' & _ & -> & Hh);
    [by exists buffer|].
  rewrite Hm in Hm'. injection Hm' as <-. rewrite len_app. lia.
Qed.

(** While nothing was cut, the first block that the loop cuts is larger
    than [maxSize]: the cut comes after the entry that crossed the limit. *)
Lemma Encode_loop_first_cut todo : ∀ cur,
  (∀ k e, (k, e) ∈ todo → encodable e) →
  len (frames cur) ≤ maxSize → maxSize < len (frames cur) + len (frames todo) →
  ∃ buf block rest n,
    Encode_loop (frames cur) [] (len (frames cur)) todo = Returns (buf, block :: rest, n) ∧
    maxSize < len block.
Proof.
  induction todo as [|[k e] todo IH]; intros cur Henc Hle Hgt.
  - change (len (frames [])) with 0 in Hgt. lia.
  - assert (Henc' : ∀ k' e', (k', e') ∈ todo → encodable e').
    { intros k' e' Hin. apply (Henc k'). by right. }
    rewrite frames_cons, len_app in Hgt. cbn [Encode_loop].
    rewrite WriteDelimited_encodable by (apply (Henc k); left). simpl.
    assert (frames cur ++ frame e = frames (cur ++ [(k, e)])) as Hfe.
    { rewrite frames_app, frames_cons. change (frames []) with (@nil Z).
      by rewrite app_nil_r. }
    assert (len (frames cur) + len (frame e) = len (frames (cur ++ [(k, e)]))) as Hn.
    { by rewrite <- Hfe, len_app. }
    rewrite Hfe, Hn.
    destruct (Z.ltb_spec maxSize (len (frames (cur ++ [(k, e)])))) as [Hcut|Hkeep].
    + destruct (Encode_loop_runs todo [] [frames (cur ++ [(k, e)])]
                  (len (frames (cur ++ [(k, e)]))) Henc')
        as (runs & last & _ & Hloop & _); [by right|].
      change (frames []) with (@nil Z) in Hloop. rewrite Hloop.
      exists (frames last), (frames (cur ++ [(k, e)])), (map frames runs).
      eexists. split; [reflexivity | done].
    + apply IH; [done | done | lia].
Qed.

(** So a map whose framed encoding takes more than [maxSize] in all is
    encoded with a first block larger than [maxSize]. *)
Lemma Encode_first_block_exceeds order :
  (∀ k e, (k, e) ∈ order → encodable e) → maxSize < len (frames order) →
  ∃ block rest, Encode order = Returns (block :: rest) ∧ maxSize < len block.
Proof.
  intros Henc Hgt.
  destruct (Encode_loop_first_cut order [] Henc) as (buf & block & rest & n & Hloop & Hbig).
  { by unfold maxSize. }
  { change (len (frames [])) with 0. lia. }
  change (frames []) with (@nil Z) in Hloop. change (len []) with 0 in Hloop.
  unfold Encode. rewrite Hloop. simpl.
  destruct (0 <? len buf); [by exists block, (rest ++ [buf]) | by exists block, rest].
Qed.
End Encode_properties.

(** * Further properties of the log *)

Section log_further.
Context `{ReceiverSchema}.
Local Abbreviation gossipData := (gmap string pb.MeshEntry).
Implicit Types st : gossipData.
Implicit Types order : list (string * pb.MeshEntry).

(** A timestamp that [TimestampProto] built converts back to the instant. *)
Lemma TimestampProto_back t ts :
  ptypes.TimestampProto t = (ts, None) →
  ∃ ts', ts = Some ts' ∧ ptypes.Timestamp (Some ts') = (t, None).
Proof.
  unfold ptypes.TimestampProto. cbv zeta.
  destruct (ptypes.validateTimestamp _) as [err|] eqn:Hv; [done|].
  intros [= <-]. eexists. split; [done|]. unfold ptypes.Timestamp. rewrite Hv.
  f_equal. simpl. unfold time.Unix, time.Sub, time.ToUnix. lia.
Qed.

(** The ways in which [log] returns: with the state as it was, or with
    the new entry stored under the key. *)
Lemma log_returns_cases now retention st r gkey ghash resolved st' err :
  log now retention st r gkey ghash resolved = Returns (st', err) →
  (st' = st ∧
   (err = None → has_newer_entry st (stateKey gkey r) now)) ∨
  (err = None ∧ appended now retention st r gkey ghash resolved st' ∧
   ∀ prev t, st !! stateKey gkey r = Some prev → entry_time prev = Some t → t ≤ now).
Proof.
  assert (Hstore :
    match ptypes.TimestampProto now with
    | (_, Some err) => Returns (st, Some err)
    | (ts, None) =>
      match ptypes.TimestampProto (time.Add now retention) with
      | (_, Some err) => Returns (st, Some err)
      | (expts, None) =>
        Returns (<[stateKey gkey r := pb.mkMeshEntry
                           (Some (pb.mkEntry gkey r ghash resolved ts))
                           expts]> st, None)
      end
    end = Returns (st', err) →
    (st' = st ∧ err ≠ None) ∨
    (err = None ∧ appended now retention st r gkey ghash resolved st')).
  { destruct (ptypes.TimestampProto now) as [ts [e1|]] eqn:Hts;
      [intros [= <- <-]; by left|].
    destruct (ptypes.TimestampProto (time.Add now retention)) as [ets [e2|]] eqn:Hets;
      [intros [= <- <-]; by left|].
    intros [= <- <-]. right. split; [done|].
    destruct (TimestampProto_back _ _ Hts) as (ts' & -> & Hb1).
    destruct (TimestampProto_back _ _ Hets) as (ets' & -> & Hb2).
    by exists ts', ets'. }
  unfold log. destruct (st !! stateKey gkey r) as [prev|] eqn:Hk.
  - destruct (pb.MeshEntry_Entry prev) as [pe|] eqn:Hpe; [|done].
    destruct (ptypes.Timestamp (pb.Timestamp pe)) as [prevts [e|]] eqn:Hpts.
    { intros [= <- <-]. left. by split. }
    unfold time.After. destruct (Z.ltb_spec now prevts) as [Hlt|Hge].
    + intros [= <- <-]. left. split; [done|]. intros _. exists prev, prevts.
      split; [done|]. split; [|done]. unfold entry_time. by rewrite Hpe, Hpts.
    + intros Hs. destruct (Hstore Hs) as [[-> Hne]|[-> Happ]].
      * left. split; [done|]. by intros ->.
      * right. split; [done|]. split; [done|]. intros prev' t [= <-].
        unfold entry_time. rewrite Hpe, Hpts. by intros [= <-].
  - intros Hs. destruct (Hstore Hs) as [[-> Hne]|[-> Happ]].
    + left. split; [done|]. by intros ->.
    + right. by repeat split.
Qed.

(** X1: a call of [log] that returns, with or without an error, leaves
    every other key as it was, and leaves under its own key an entry whose
    timestamp is not before the one that was there. *)
Theorem log_only_moves_forward now retention st r gkey ghash resolved st' err :
  log now retention st r gkey ghash resolved = Returns (st', err) →
  (∀ k, k ≠ stateKey gkey r → st' !! k = st !! k) ∧
  (∀ prev t, st !! stateKey gkey r = Some prev → entry_time prev = Some t →
     ∃ e' t', st' !! stateKey gkey r = Some e' ∧ entry_time e' = Some t' ∧ t ≤ t').
Proof.
  intros Hlog.
  destruct (log_returns_cases _ _ _ _ _ _ _ _ _ Hlog)
    as [[-> _]|(_ & (ts & expts & -> & Hts & _) & Hle)].
  - split; [done|]. intros prev t Hk Ht. exists prev, t. by repeat split.
  - split; [intros k Hne; by rewrite lookup_insert_ne|].
    intros prev t Hk Ht. eexists _, now. rewrite lookup_insert_eq.
    split; [done|]. split; [|by eapply Hle].
    unfold entry_time. cbn [pb.MeshEntry_Entry pb.Timestamp]. by rewrite Hts.
Qed.


(** The state after a collection that meets only well-formed expiries. *)
Lemma GC_lookup now st order :
  ranges st order → expiries_ok st →
  ∃ st', GC now st order = (st', expired_count now order, None) ∧
    ∀ k, st' !! k = match st !! k with
                    | Some e => if expired now e then None else Some e
                    | None => None
                    end.
Proof.
  intros Hr Hok.
  destruct (GC_loop_complete now order (ranges_NoDup _ _ Hr) st 0) as (st' & Hg & Hl & _).
  { intros k e Hin. apply (ranges_elem_of st order) in Hin; [|done].
    split; [done|]. by eapply Hok. }
  rewrite (ranges_list_to_map _ _ Hr) in Hl. exists st'. unfold GC. rewrite Hg.
  split; [done|]. intros k. rewrite Hl. by destruct (st !! k).
Qed.

(** X3: an entry logged at [now] with retention [retention] is found by a
    query after every collection run before [now + retention], and is gone
    (the query returns [ErrNotFound]) after a collection run at
    [now + retention] or later. *)
Theorem logged_entry_lives_for_retention now retention st r gkey ghash resolved st1
    order T :
  log now retention st (Some r) gkey ghash resolved = Returns (st1, None) →
  ¬ has_newer_entry st (stateKey gkey (Some r)) now →
  expiries_ok st → ranges st1 order →
  ∃ st2 n, GC T st1 order = (st2, n, None) ∧
    (T < time.Add now retention →
       Query st2 [QReceiver (Some r); QGroupKey (Some gkey)]
         = Query st1 [QReceiver (Some r); QGroupKey (Some gkey)] ∧
       ∃ e, Query st2 [QReceiver (Some r); QGroupKey (Some gkey)] = ([Some e], None)) ∧
    (time.Add now retention ≤ T →
       Query st2 [QReceiver (Some r); QGroupKey (Some gkey)] = ([], Some ErrNotFound)).
Proof.
  intros Hlog Hnot Hok Hr.
  destruct (log_returns_cases _ _ _ _ _ _ _ _ _ Hlog)
    as [[-> Hnewer]|(_ & (ts & expts & -> & Hts & Hexp) & _)];
    [by specialize (Hnewer eq_refl)|].
  destruct (GC_lookup T _ order Hr) as (st2 & HGC & Hl).
  { intros k e. destruct (decide (k = stateKey gkey (Some r))) as [->|Hne].
    - rewrite lookup_insert_eq. intros [= <-]. unfold expiry_time. simpl pb.ExpiresAt.
      rewrite Hexp. by eexists.
    - rewrite lookup_insert_ne by done. apply Hok. }
  exists st2, (expired_count T order). split; [done|].
  specialize (Hl (stateKey gkey (Some r))). rewrite lookup_insert_eq in Hl.
  unfold expired, expiry_time in Hl. simpl pb.ExpiresAt in Hl. rewrite Hexp in Hl.
  unfold Query. simpl. rewrite Hl, lookup_insert_eq. split.
  - intros Hlt. apply Z.ltb_lt in Hlt as ->. simpl. split; [done|]. by eexists.
  - intros Hge. apply Z.ltb_ge in Hge as ->. done.
Qed.

End log_further.

Section merge_further.
Context `{ReceiverSchema}.
Local Abbreviation gossipData := (gmap string pb.MeshEntry).
Implicit Types gd other delta : gossipData.
Implicit Types order : list (string * pb.MeshEntry).

Lemma lww_time prev e pts ets :
  entry_time prev = Some pts → entry_time e = Some ets →
  entry_time (lww prev e) = Some (Z.max pts ets).
Proof.
  intros Hp He. unfold lww. rewrite Hp, He.
  destruct (Z.ltb_spec pts ets); [rewrite He | rewrite Hp]; f_equal; lia.
Qed.

(** X4: a merge of maps with well-formed timestamps never drops a key,
    never stores an entry that was in neither map, and leaves under every
    key a timestamp that is not before the one the state held nor before
    the one that came in. *)
Theorem Merge_keeps_keys_and_latest gd other order :
  ranges other order → timestamps_ok gd → timestamps_ok other →
  ∃ gd', Merge gd order = Returns gd' ∧
    (∀ k e t, gd !! k = Some e ∨ other !! k = Some e → entry_time e = Some t →
       ∃ e' t', gd' !! k = Some e' ∧ entry_time e' = Some t' ∧ t ≤ t') ∧
    (∀ k e', gd' !! k = Some e' → gd !! k = Some e' ∨ other !! k = Some e').
Proof.
  intros Hr Hg Ho.
  destruct (Merge_lookup gd other order Hr (timestamps_ok_comparable _ _ Hg Ho))
    as (gd' & Hm & Hl).
  exists gd'. split; [done|]. split.
  - intros k e t Hin Ht. rewrite Hl.
    destruct (other !! k) as [eo|] eqn:Heo, (gd !! k) as [eg|] eqn:Heg; simpl.
    + destruct (Hg k eg Heg) as [tg Htg]. destruct (Ho k eo Heo) as [to Hto].
      exists (lww eg eo), (Z.max tg to). split; [done|].
      split; [by apply lww_time|].
      destruct Hin as [[= <-]|[= <-]]; simplify_eq; lia.
    + destruct Hin as [?|[= <-]]; [done|]. exists eo, t. by repeat split.
    + destruct Hin as [[= <-]|?]; [|done]. exists eg, t. by repeat split.
    + by destruct Hin.
  - intros k e'. rewrite Hl.
    destruct (other !! k) as [eo|] eqn:Heo; [|by left].
    destruct (gd !! k) as [eg|] eqn:Heg; simpl; [|by right].
    intros [= <-]. destruct (lww_either eg eo) as [-> | ->]; [by left | by right].
Qed.

(** X5: on maps whose entries all carry a timestamp that validates,
    gossip that was merged once brings nothing new the second time:
    [mergeDelta] of the same data into the merged state leaves the state
    as it is and returns an empty delta. (Without such timestamps the
    second merge can panic.) *)
Theorem mergeDelta_again_is_empty gd other order order' :
  ranges other order → ranges other order' → timestamps_ok gd → timestamps_ok other →
  ∃ gd' delta, mergeDelta gd order = Returns (gd', delta) ∧
    mergeDelta gd' order' = Returns (gd', ∅).
Proof.
  intros Hr Hr' Hg Ho.
  pose proof (timestamps_ok_comparable _ _ Hg Ho) as Hcmp.
  destruct (mergeDelta_lookup gd other order Hr Hcmp) as (gd' & delta & Hd & Hm & _).
  destruct (Merge_lookup gd other order Hr Hcmp) as (gd1 & Hm1 & Hl).
  rewrite Hm in Hm1. injection Hm1 as <-.
  pose proof (Merge_timestamps_ok gd other gd' Hg Ho Hl) as Hg'.
  pose proof (timestamps_ok_comparable _ _ Hg' Ho) as Hcmp'.
  destruct (mergeDelta_lookup gd' other order' Hr' Hcmp') as (gd2 & delta2 & Hd2 & Hm2 & Hl2).
  destruct (Merge_lookup gd' other order' Hr' Hcmp') as (gd3 & Hm3 & Hl3).
  rewrite Hm2 in Hm3. injection Hm3 as <-.
  assert (Hstay : ∀ k e, other !! k = Some e → changes (gd' !! k) e = false).
  { intros k e He. rewrite Hl, He. unfold changes.
    destruct (Ho k e He) as [te Hte].
    destruct (gd !! k) as [eg|] eqn:Heg; simpl.
    - destruct (Hg k eg Heg) as [tg Htg].
      rewrite (lww_time eg e tg te Htg Hte), Hte. apply Z.ltb_ge. lia.
    - rewrite Hte. apply Z.ltb_irrefl. }
  exists gd', delta. split; [done|]. rewrite Hd2. do 2 f_equal.
  - apply map_eq. intros k. rewrite Hl3.
    destruct (other !! k) as [e|] eqn:He; [|done].
    rewrite lww_opt_changes, (Hstay k e He).
    specialize (Hl k). rewrite He in Hl. by rewrite Hl.
  - apply map_eq. intros k. rewrite Hl2, lookup_empty.
    destruct (other !! k) as [e|] eqn:He; [|done]. by rewrite (Hstay k e He).
Qed.

(** X7: for keys that the state does not hold, [Merge] and [mergeDelta]
    compare nothing: whatever the timestamps of the two maps are, also
    missing or out of range, merging a map into one that shares no key
    with it returns their union, and the delta is the whole input. *)
Theorem Merge_disjoint_is_union gd other order :
  ranges other order → (∀ k, gd !! k = None ∨ other !! k = None) →
  Merge gd order = Returns (other ∪ gd) ∧
  mergeDelta gd order = Returns (other ∪ gd, other).
Proof.
  intros Hr Hdisj.
  assert (Hcmp : comparable gd other).
  { intros k prev e Hk He. destruct (Hdisj k); congruence. }
  destruct (mergeDelta_lookup gd other order Hr Hcmp) as (gd' & delta & Hd & Hm & Hld).
  destruct (Merge_lookup gd other order Hr Hcmp) as (gd1 & Hm1 & Hl).
  rewrite Hm in Hm1. injection Hm1 as <-.
  assert (gd' = other ∪ gd) as ->.
  { apply map_eq. intros k. rewrite Hl, lookup_union.
    destruct (other !! k) as [e|] eqn:He; [|by destruct (gd !! k)].
    destruct (Hdisj k) as [Hk|?]; [|congruence]. by rewrite Hk. }
  assert (delta = other) as ->.
  { apply map_eq. intros k. rewrite Hld.
    destruct (other !! k) as [e|] eqn:He; [|done].
    destruct (Hdisj k) as [Hk|?]; [|congruence]. by rewrite Hk. }
  done.
Qed.
End merge_further.

Section decode_further.
Context `{MeshEntryCodec}.
Local Abbreviation gossipData := (gmap string pb.MeshEntry).
Implicit Types st l_st : gossipData.
Implicit Types order : list (string * pb.MeshEntry).

(** A header that was read took at least one byte from the reader. *)
Lemma readHeader_shrinks room : ∀ headerBuf r n messageLength r',
  readHeader room headerBuf r = (n, inr (messageLength, r')) →
  (length r' < length r)%nat.
Proof.
  induction room as [|room IH]; intros headerBuf r n messageLength r'; [done|].
  cbn [readHeader]. destruct r as [|b r]; [done|].
  destruct (DecodeVarint (headerBuf ++ [b])) as [x varIntBytes].
  destruct (varIntBytes =? 0).
  - intros Hrec. apply IH in Hrec. simpl. lia.
  - intros [= _ _ <-]. simpl. lia.
Qed.

Lemma ReadDelimited_shrinks r r' n e :
  ReadDelimited r = (r', n, inr e) → (length r' < length r)%nat.
Proof.
  unfold ReadDelimited.
  destruct (readHeader MaxVarintLen32 [] r) as [bytesRead [err|[messageLength r1]]] eqn:Hh;
    [done|].
  apply readHeader_shrinks in Hh. unfold io_ReadFull.
  destruct (messageLength <=? len r1).
  - intros [= <- _ _]. rewrite length_drop. lia.
  - by destruct (len r1 =? 0).
Qed.

Lemma readEntries_returns fuel : ∀ r st,
  (length r < fuel)%nat → is_Some (readEntries fuel r st).
Proof.
  induction fuel as [|fuel IH]; intros r st Hfuel; [lia|].
  cbn [readEntries].
  destruct (ReadDelimited r) as [[r' n] [err|e]] eqn:Hread.
  - by destruct err.
  - destruct (pb.MeshEntry_Entry e); [|done].
    apply IH. apply ReadDelimited_shrinks in Hread. lia.
Qed.

(** X8: decoding comes to an end on every input, well-formed or not:
    [decodeGossipData] and [loadSnapshot] return a result (a map, an error
    or a panic) for every sequence of bytes. *)
Theorem decoding_terminates msg l_st :
  is_Some (decodeGossipData msg) ∧ is_Some (loadSnapshot l_st msg).
Proof.
  assert (is_Some (readEntries (S (length msg)) msg ∅)) as [res Hres].
  { apply readEntries_returns. lia. }
  split; [by exists res|]. unfold loadSnapshot. rewrite Hres.
  destruct res as [[st [err|]]|p]; by eexists.
Qed.

(** The loop goes through the frames of well-formed entries and then
    reads on what follows them. *)
Lemma readEntries_frames_then order : ∀ fuel st tail,
  (∀ k e, (k, e) ∈ order → round_trips e ∧
     ∃ en, pb.MeshEntry_Entry e = Some en ∧
           k = stateKey (pb.GroupKey en) (pb.Entry_Receiver en)) →
  (length order ≤ fuel)%nat →
  readEntries fuel (frames order ++ tail) st =
    readEntries (fuel - length order) tail
      (foldl (λ acc kv, <[kv.1 := kv.2]> acc) st order).
Proof.
  induction order as [|[k e] order IH]; intros fuel st tail Hok Hfuel.
  - simpl. by rewrite Nat.sub_0_r.
  - destruct fuel as [|fuel]; [simpl in Hfuel; lia|].
    destruct (Hok k e ltac:(left)) as (Hrt & en & Hen & Hkey).
    rewrite frames_cons, <- app_assoc. cbn [readEntries].
    rewrite (ReadDelimited_frame e _ Hrt), Hen, <- Hkey. simpl in Hfuel.
    rewrite IH; [done | | lia]. intros k' e' Hin. apply Hok. by right.
Qed.

Lemma state_entries_decodable st order :
  ranges st order → keyed_by_entry st → (∀ k e, st !! k = Some e → round_trips e) →
  ∀ k e, (k, e) ∈ order → round_trips e ∧
     ∃ en, pb.MeshEntry_Entry e = Some en ∧
           k = stateKey (pb.GroupKey en) (pb.Entry_Receiver en).
Proof.
  intros Hr Hkey Hrt k e Hin. apply (ranges_elem_of st order k e Hr) in Hin.
  split; [by apply (Hrt k) | by apply Hkey].
Qed.

Lemma state_entries_encodable st order :
  ranges st order → (∀ k e, st !! k = Some e → round_trips e) →
  ∀ k e, (k, e) ∈ order → encodable e.
Proof.
  intros Hr Hrt k e Hin. apply round_trips_encodable, (Hrt k).
  by apply (ranges_elem_of st order).
Qed.

(** Reading the frames of a state and then a tail on which the first read
    fails with [err]. *)
Lemma readEntries_state_then st order tail fuel r' n err :
  ranges st order → keyed_by_entry st → (∀ k e, st !! k = Some e → round_trips e) →
  ReadDelimited tail = (r', n, inl err) → (length order < fuel)%nat →
  readEntries fuel (frames order ++ tail) ∅ =
    Some (Returns (st, match err with io_EOF => None | _ => Some err end)).
Proof.
  intros Hr Hkey Hrt Hread Hfuel.
  rewrite readEntries_frames_then;
    [|by apply (state_entries_decodable st) | lia].
  rewrite (foldl_insert_ranges st order Hr).
  destruct (fuel - length order)%nat as [|fuel'] eqn:Hf; [lia|].
  cbn [readEntries]. rewrite Hread. by destruct err.
Qed.

Lemma length_frames_tail order tail :
  (∀ k e, (k, e) ∈ order → encodable e) →
  (length order < S (length (frames order ++ tail)))%nat.
Proof.
  intros Henc. pose proof (frames_length order Henc). rewrite length_app. lia.
Qed.

(** A reader that ends inside a header reports [io.EOF]. *)
Lemma readHeader_cut tail : ∀ headerBuf room,
  Forall continued (headerBuf ++ tail) → (length tail < room)%nat →
  readHeader room headerBuf tail = (len (headerBuf ++ tail), inl io_EOF).
Proof.
  induction tail as [|b tail IH]; intros headerBuf room Hc Hroom;
    (destruct room as [|room]; [simpl in Hroom; lia|]); cbn [readHeader].
  - by rewrite app_nil_r.
  - replace (headerBuf ++ b :: tail) with ((headerBuf ++ [b]) ++ tail) in *
      by (by rewrite <- app_assoc).
    unfold DecodeVarint.
    rewrite DecodeVarint_loop_incomplete by (by apply Forall_app in Hc as [? _]).
    change (0 =? 0) with true. cbv iota.
    apply IH; [done | simpl in Hroom; lia].
Qed.

(** A header that does not end within the header buffer is refused. *)
Lemma readHeader_overlong bad : ∀ headerBuf room rest,
  Forall continued (headerBuf ++ bad) → length bad = room →
  readHeader room headerBuf (bad ++ rest) = (len (headerBuf ++ bad), inl errInvalidVarint).
Proof.
  induction bad as [|b bad IH]; intros headerBuf room rest Hc Hroom;
    (destruct room as [|room]; [|simpl in Hroom; try lia]); try done.
  - by rewrite app_nil_r.
  - change ((b :: bad) ++ rest) with (b :: bad ++ rest). cbn [readHeader].
    replace (headerBuf ++ b :: bad) with ((headerBuf ++ [b]) ++ bad) in *
      by (by rewrite <- app_assoc).
    unfold DecodeVarint.
    rewrite DecodeVarint_loop_incomplete by (by apply Forall_app in Hc as [? _]).
    change (0 =? 0) with true. cbv iota.
    apply IH; [done | lia].
Qed.

(** X9: input that is cut off inside the length header of a frame, or
    right after the header of a non-empty message, is taken as ending
    before that frame: after the frames of a state, [loadSnapshot] and
    [decodeGossipData] return the state without an error. *)
Theorem cut_header_ends_input st order l_st tail :
  ranges st order → keyed_by_entry st → (∀ k e, st !! k = Some e → round_trips e) →
  (Forall continued tail ∧ (length tail < 5)%nat) ∨
  (∃ messageLength, 0 < messageLength ∧
     PutUvarint MaxVarintLen32 messageLength = Returns tail) →
  loadSnapshot l_st (frames order ++ tail) = Some (Returns (st, None)) ∧
  decodeGossipData (frames order ++ tail) = Some (Returns (st, None)).
Proof.
  intros Hr Hkey Hrt Htail.
  assert (∃ r' n, ReadDelimited tail = (r', n, inl io_EOF)) as (r' & n & Hread).
  { unfold ReadDelimited. destruct Htail as [[Hc Hlen]|(L & HL & Hput)].
    - rewrite (readHeader_cut tail [] MaxVarintLen32); [by eexists _, _ | done | done].
    - rewrite <- (app_nil_r tail).
      rewrite (readHeader_PutUvarint L tail []); [|lia|done].
      unfold io_ReadFull. change (len []) with 0.
      destruct (Z.leb_spec L 0); [lia|]. by eexists _, _. }
  assert (readEntries (S (length (frames order ++ tail))) (frames order ++ tail) ∅
          = Some (Returns (st, None))) as Hres.
  { rewrite (readEntries_state_then st order tail _ r' n io_EOF); try done.
    by apply length_frames_tail, (state_entries_encodable st). }
  split; [|done]. unfold loadSnapshot. by rewrite Hres.
Qed.

(** X10: input that is cut off inside a message is an error: after the
    frames of a state, a header and a part of the message it announces,
    [loadSnapshot] returns [io.ErrUnexpectedEOF] and leaves the log's state
    as it was, and [decodeGossipData] returns the error with the entries
    read so far. *)
Theorem cut_message_is_an_error st order l_st messageLength header part :
  ranges st order → keyed_by_entry st → (∀ k e, st !! k = Some e → round_trips e) →
  PutUvarint MaxVarintLen32 messageLength = Returns header →
  0 < len part < messageLength →
  loadSnapshot l_st (frames order ++ header ++ part)
    = Some (Returns (l_st, Some io_ErrUnexpectedEOF)) ∧
  decodeGossipData (frames order ++ header ++ part)
    = Some (Returns (st, Some io_ErrUnexpectedEOF)).
Proof.
  intros Hr Hkey Hrt Hput Hpart.
  assert (∃ r' n, ReadDelimited (header ++ part) = (r', n, inl io_ErrUnexpectedEOF))
    as (r' & n & Hread).
  { unfold ReadDelimited. rewrite (readHeader_PutUvarint messageLength header part); [|lia|done].
    unfold io_ReadFull. destruct (Z.leb_spec messageLength (len part)); [lia|].
    destruct (Z.eqb_spec (len part) 0); [lia|]. by eexists _, _. }
  assert (readEntries (S (length (frames order ++ header ++ part)))
            (frames order ++ header ++ part) ∅
          = Some (Returns (st, Some io_ErrUnexpectedEOF))) as Hres.
  { rewrite (readEntries_state_then st order _ _ r' n io_ErrUnexpectedEOF); try done.
    by apply length_frames_tail, (state_entries_encodable st). }
  split; [|done]. unfold loadSnapshot. by rewrite Hres.
Qed.

(** X11: a length header of five bytes that all carry the continuation
    bit is refused, whatever follows it: [loadSnapshot] returns the
    invalid-varint error and leaves the log's state as it was, and
    [decodeGossipData] returns the error with the entries read so far. *)
Theorem overlong_header_is_an_error st order l_st bad rest :
  ranges st order → keyed_by_entry st → (∀ k e, st !! k = Some e → round_trips e) →
  Forall continued bad → length bad = 5%nat →
  loadSnapshot l_st (frames order ++ bad ++ rest)
    = Some (Returns (l_st, Some errInvalidVarint)) ∧
  decodeGossipData (frames order ++ bad ++ rest)
    = Some (Returns (st, Some errInvalidVarint)).
Proof.
  intros Hr Hkey Hrt Hbad Hlen.
  assert (∃ r' n, ReadDelimited (bad ++ rest) = (r', n, inl errInvalidVarint))
    as (r' & n & Hread).
  { unfold ReadDelimited.
    rewrite (readHeader_overlong bad [] MaxVarintLen32 rest); [by eexists _, _ | done | done]. }
  assert (readEntries (S (length (frames order ++ bad ++ rest)))
            (frames order ++ bad ++ rest) ∅
          = Some (Returns (st, Some errInvalidVarint))) as Hres.
  { rewrite (readEntries_state_then st order _ _ r' n errInvalidVarint); try done.
    by apply length_frames_tail, (state_entries_encodable st). }
  split; [|done]. unfold loadSnapshot. by rewrite Hres.
Qed.
End decode_further.

Section decode_keys.
Context `{MeshEntryCodec}.
Local Abbreviation gossipData := (gmap string pb.MeshEntry).
Implicit Types st l_st gd : gossipData.
Implicit Types order : list (string * pb.MeshEntry).
Implicit Types es : list pb.MeshEntry.

(** Storing entries under their own keys one after the other leaves under
    a key the last entry that has it. *)
Lemma foldl_own_key_last es : ∀ st k,
  (∀ e, e ∈ es → is_Some (own_key e)) →
  foldl (λ acc e, <[default "" (own_key e) := e]> acc) st es !! k =
    match last (filter (λ e, own_key e = Some k) es) with
    | Some e => Some e
    | None => st !! k
    end.
Proof.
  induction es as [|e es IH]; intros st k Hown; [done|].
  destruct (Hown e ltac:(left)) as [ke Hke].
  cbn [foldl]. rewrite IH by (intros e' Hin; apply Hown; by right).
  rewrite filter_cons, Hke. simpl. destruct (decide (Some ke = Some k)) as [[= ->]|Hne].
  - rewrite last_cons. destruct (last (filter _ es)); [done|]. by rewrite lookup_insert_eq.
  - rewrite lookup_insert_ne by congruence. done.
Qed.

(** X12: [decodeGossipData] files every entry under the composite key of
    the entry's own group key and receiver, and does not compare
    timestamps: of the entries of a message that have the same key, the
    one that comes last in the message is the one in the decoded map. *)
Theorem decodeGossipData_last_frame_wins es :
  (∀ e, e ∈ es → round_trips e ∧ is_Some (own_key e)) →
  ∃ gd, decodeGossipData (flat_map frame es) = Some (Returns (gd, None)) ∧
    ∀ k, gd !! k = last (filter (λ e, own_key e = Some k) es).
Proof.
  intros Hes.
  set (order := map (λ e, (default "" (own_key e), e)) es).
  assert (Hframes : frames order = flat_map frame es).
  { unfold order, frames. clear. induction es as [|e es IH]; [done|]. simpl. by rewrite IH. }
  assert (Hfold : ∀ st, foldl (λ acc kv, <[kv.1 := kv.2]> acc) st order =
                        foldl (λ acc e, <[default "" (own_key e) := e]> acc) st es).
  { unfold order. clear. induction es as [|e es IH]; intros st; [done|]. simpl. by rewrite IH. }
  exists (foldl (λ acc e, <[default "" (own_key e) := e]> acc) ∅ es). split.
  - unfold decodeGossipData. rewrite <- Hframes, readEntries_frames.
    + by rewrite Hfold.
    + intros k e [e' [[= -> ->] Hin]]%list_elem_of_fmap.
      destruct (Hes e' Hin) as [Hrt [ke Hke]]. split; [done|].
      unfold own_key in *. destruct (pb.MeshEntry_Entry e') as [en|]; [|done].
      exists en. split; [done|]. by injection Hke as <-.
    + assert (length order ≤ length (frames order))%nat; [|lia].
      apply frames_length. intros k e [e' [[= -> ->] Hin]]%list_elem_of_fmap.
      by apply round_trips_encodable, Hes.
  - intros k. rewrite foldl_own_key_last by (intros e Hin; by apply Hes).
    rewrite lookup_empty. by destruct (last _).
Qed.

(** X13: a message that holds, after well-formed entries, a mesh entry
    without its entry part makes the decoding loop dereference nil:
    [decodeGossipData] and [loadSnapshot] panic, whatever follows. *)
Theorem decoding_entryless_message_panics st order e rest l_st :
  ranges st order → keyed_by_entry st → (∀ k e, st !! k = Some e → round_trips e) →
  round_trips e → pb.MeshEntry_Entry e = None →
  decodeGossipData (frames order ++ frame e ++ rest) = Some (Panics nilDereference) ∧
  loadSnapshot l_st (frames order ++ frame e ++ rest) = Some (Panics nilDereference).
Proof.
  intros Hr Hkey Hrt He Hnil.
  assert (readEntries (S (length (frames order ++ frame e ++ rest)))
            (frames order ++ frame e ++ rest) ∅ = Some (Panics nilDereference)) as Hres.
  { pose proof (length_frames_tail order (frame e ++ rest)
                  (state_entries_encodable st order Hr Hrt)) as Hlen.
    rewrite readEntries_frames_then;
      [|by apply (state_entries_decodable st) | lia].
    destruct (S (length (frames order ++ frame e ++ rest)) - length order)%nat
      as [|fuel'] eqn:Hf; [lia|].
    cbn [readEntries]. by rewrite (ReadDelimited_frame e rest He), Hnil. }
  split; [done|]. unfold loadSnapshot. by rewrite Hres.
Qed.
End decode_keys.

Section write_errors.
Context `{MeshEntryCodec}.
Implicit Types pre post : list (string * pb.MeshEntry).

Lemma WriteDelimited_marshal_error w e err :
  Marshal e = inl err → WriteDelimited w e = Returns (w, 0, Some err).
Proof. intros Hm. unfold WriteDelimited. by rewrite Hm. Qed.

(** X17: when the codec fails on an entry, [Snapshot] stops there: the
    writer holds the frames of the entries visited before, the count is
    the number of those bytes, and the codec's error is returned. *)
Theorem Snapshot_stops_at_marshal_error pre k e post err w :
  (∀ k' e', (k', e') ∈ pre → encodable e') → Marshal e = inl err →
  Snapshot (pre ++ (k, e) :: post) w = Returns (w ++ frames pre, len (frames pre), Some err).
Proof.
  intros Henc Hm. unfold Snapshot.
  assert (Hgen : ∀ w n, Snapshot_loop w n (pre ++ (k, e) :: post) =
                   Returns (w ++ frames pre, n + len (frames pre), Some err)).
  { clear w. induction pre as [|[k' e'] pre IH]; intros w n.
    - simpl app. cbn [Snapshot_loop]. rewrite (WriteDelimited_marshal_error w e err Hm).
      simpl. change (frames []) with (@nil Z). rewrite app_nil_r.
      change (len []) with 0. done.
    - rewrite frames_cons, len_app, app_assoc.
      change (((k', e') :: pre) ++ (k, e) :: post) with ((k', e') :: pre ++ (k, e) :: post).
      cbn [Snapshot_loop]. rewrite WriteDelimited_encodable by (apply (Henc k'); left).
      simpl. rewrite IH by (intros k0 e0 Hin; apply (Henc k0); by right).
      by rewrite Z.add_assoc. }
  by rewrite Hgen.
Qed.

(** X18: when the codec fails on an entry, [Encode] panics with the
    codec's error, wherever the entry comes in the visiting order. *)
Theorem Encode_panics_at_marshal_error pre k e post err :
  (∀ k' e', (k', e') ∈ pre → encodable e') → Marshal e = inl err →
  Encode (pre ++ (k, e) :: post) = Panics (panicError err).
Proof.
  intros Henc Hm. unfold Encode.
  assert (Hgen : ∀ buf res n, Encode_loop buf res n (pre ++ (k, e) :: post) =
                   Panics (panicError err)).
  { induction pre as [|[k' e'] pre IH]; intros buf res n.
    - simpl app. cbn [Encode_loop].
      by rewrite (WriteDelimited_marshal_error buf e err Hm).
    - change (((k', e') :: pre) ++ (k, e) :: post) with ((k', e') :: pre ++ (k, e) :: post).
      cbn [Encode_loop]. rewrite WriteDelimited_encodable by (apply (Henc k'); left).
      simpl. destruct (maxSize <? n + len (frame e'));
        apply IH; intros k0 e0 Hin; apply (Henc k0); by right. }
  by rewrite Hgen.
Qed.
End write_errors.

Section gossip_properties.
Context `{MeshEntryCodec}.
Local Abbreviation gossipData := (gmap string pb.MeshEntry).
Implicit Types st other gd delta : gossipData.
Implicit Types order run : list (string * pb.MeshEntry).
Implicit Types visit : gmap string pb.MeshEntry → list (string * pb.MeshEntry).

(** X16: [Gossip] and [clone] return a map with exactly the entries of the
    map they copy, in whatever order they visit it. *)
Theorem Gossip_copies_state st order :
  ranges st order → Gossip order = st ∧ clone order = st.
Proof.
  intros Hr. unfold Gossip, clone. by rewrite (foldl_insert_ranges st order Hr).
Qed.

(** The delta is empty exactly when the merge changed nothing. *)
Lemma mergeDelta_empty_iff st other order st' delta :
  ranges other order → timestamps_ok st → timestamps_ok other →
  mergeDelta st order = Returns (st', delta) → (delta = ∅ ↔ st' = st).
Proof.
  intros Hr Hg Ho Hmd.
  pose proof (timestamps_ok_comparable _ _ Hg Ho) as Hcmp.
  destruct (mergeDelta_lookup st other order Hr Hcmp) as (st1 & delta1 & Hd & Hm & Hld).
  rewrite Hmd in Hd. injection Hd as <- <-.
  destruct (Merge_lookup st other order Hr Hcmp) as (st2 & Hm2 & Hl).
  rewrite Hm in Hm2. injection Hm2 as <-.
  assert (Hsame : ∀ k e, other !! k = Some e →
            changes (st !! k) e = false ↔ Some (lww_opt (st !! k) e) = st !! k).
  { intros k e He. rewrite lww_opt_changes. unfold changes.
    destruct (st !! k) as [prev|] eqn:Hk; simpl; [|done].
    destruct (Hg k prev Hk) as [pts Hp]. destruct (Ho k e He) as [ets Het].
    rewrite Hp, Het. destruct (Z.ltb_spec pts ets); [|done].
    split; [done|]. intros [= ->]. rewrite Hp in Het. injection Het as ->. lia. }
  split.
  - intros ->. apply map_eq. intros k. rewrite Hl. specialize (Hld k).
    rewrite lookup_empty in Hld. destruct (other !! k) as [e|] eqn:He; [|done].
    apply (Hsame k e He). by destruct (changes (st !! k) e).
  - intros ->. apply map_eq. intros k. rewrite Hld, lookup_empty. specialize (Hl k).
    destruct (other !! k) as [e|] eqn:He; [|done].
    symmetry in Hl. apply (Hsame k e He) in Hl. by rewrite Hl.
Qed.

(** A message that holds the frames of a peer's state decodes to that state. *)
Lemma decodeGossipData_frames other order :
  ranges other order → keyed_by_entry other →
  (∀ k e, other !! k = Some e → round_trips e) →
  decodeGossipData (frames order) = Some (Returns (other, None)).
Proof.
  intros Hr Hkey Hrt. unfold decodeGossipData. rewrite readEntries_frames.
  - by rewrite (foldl_insert_ranges other order Hr).
  - by apply (state_entries_decodable other).
  - pose proof (frames_length order (state_entries_encodable other order Hr Hrt)). lia.
Qed.

(** X14: on a message that holds a peer's state, [OnGossip] and
    [OnGossipBroadcast] leave the log with the merge of the peer's state
    into its own; [OnGossipBroadcast] returns the delta, and [OnGossip]
    returns the delta when the state changed and nil when it did not. *)
Theorem OnGossip_merges_and_reports visit st other order :
  (∀ gd, ranges gd (visit gd)) →
  ranges other order → keyed_by_entry other →
  (∀ k e, other !! k = Some e → round_trips e) →
  timestamps_ok st → timestamps_ok other →
  ∃ st' delta,
    Merge st order = Returns st' ∧ mergeDelta st (visit other) = Returns (st', delta) ∧
    OnGossipBroadcast visit st (frames order) = Some (Returns (st', Some delta, None)) ∧
    (st' = st → OnGossip visit st (frames order) = Some (Returns (st, None, None))) ∧
    (st' ≠ st → delta ≠ ∅ ∧
       OnGossip visit st (frames order) = Some (Returns (st', Some delta, None))).
Proof.
  intros Hvisit Hr Hkey Hrt Hg Ho.
  pose proof (timestamps_ok_comparable _ _ Hg Ho) as Hcmp.
  destruct (mergeDelta_lookup st other (visit other) (Hvisit other) Hcmp)
    as (st' & delta & Hd & Hm & _).
  destruct (Merge_lookup st other (visit other) (Hvisit other) Hcmp) as (st1 & Hm1 & Hl1).
  destruct (Merge_lookup st other order Hr Hcmp) as (st2 & Hm2 & Hl2).
  rewrite Hm in Hm1. injection Hm1 as <-.
  assert (st2 = st') as ->.
  { apply map_eq. intros k. by rewrite Hl1, Hl2. }
  pose proof (mergeDelta_empty_iff st other (visit other) st' delta
                (Hvisit other) Hg Ho Hd) as Hiff.
  exists st', delta. split; [done|]. split; [done|].
  unfold OnGossipBroadcast, OnGossip.
  rewrite (decodeGossipData_frames other order Hr Hkey Hrt), Hd. simpl.
  split; [done|]. split.
  - intros Heq. apply Hiff in Heq as Hempty. subst delta.
    rewrite map_size_empty. simpl. by rewrite Heq.
  - intros Hne. assert (delta ≠ ∅) as Hde by (intros He; by apply Hne, Hiff).
    split; [done|].
    destruct (Z.ltb_spec 0 (Z.of_nat (size delta))) as [_|Hz]; [done|].
    exfalso. apply Hde, map_size_empty_iff. lia.
Qed.

Lemma ranges_of_NoDup run :
  NoDup run.*1 → ranges (foldl (λ acc kv, <[kv.1 := kv.2]> acc) ∅ run) run.
Proof.
  intros Hnd.
  assert (foldl (λ acc kv, <[kv.1 := kv.2]> acc) (∅ : gossipData) run = list_to_map run) as ->.
  { apply map_eq. intros k. rewrite foldl_insert_lookup by done.
    rewrite lookup_empty. by destruct (list_to_map run !! k). }
  unfold ranges. symmetry. by apply map_to_list_to_map.
Qed.

(** The messages of the runs of a state, delivered in turn. *)
Lemma deliver_runs visit (runs : list (list (string * pb.MeshEntry))) : ∀ st,
  (∀ gd, ranges gd (visit gd)) →
  NoDup (concat runs).*1 →
  (∀ k e, (k, e) ∈ concat runs →
     is_Some (entry_time e) ∧ round_trips e ∧
     ∃ en, pb.MeshEntry_Entry e = Some en ∧
           k = stateKey (pb.GroupKey en) (pb.Entry_Receiver en)) →
  timestamps_ok st →
  ∃ st', deliver visit st (map frames runs) = Some st' ∧
    ∀ k, st' !! k = match (list_to_map (concat runs) : gossipData) !! k with
                    | None => st !! k
                    | Some e => Some (lww_opt (st !! k) e)
                    end.
Proof.
  induction runs as [|run runs IH]; intros st Hvisit Hnd Hok Hg.
  - exists st. split; [done|]. intros k. simpl. by rewrite lookup_empty.
  - simpl in Hnd, Hok. rewrite fmap_app in Hnd.
    apply NoDup_app in Hnd as (Hnd_run & Hdisj & Hnd_rest).
    assert (Hok_run : ∀ k e, (k, e) ∈ run → is_Some (entry_time e) ∧ round_trips e ∧
              ∃ en, pb.MeshEntry_Entry e = Some en ∧
                    k = stateKey (pb.GroupKey en) (pb.Entry_Receiver en)).
    { intros k e Hin. apply Hok, elem_of_app. by left. }
    set (gd := foldl (λ acc kv, <[kv.1 := kv.2]> acc) (∅ : gossipData) run).
    pose proof (ranges_of_NoDup run Hnd_run) as Hr_run. fold gd in Hr_run.
    assert (Hdec : decodeGossipData (frames run) = Some (Returns (gd, None))).
    { unfold decodeGossipData. rewrite readEntries_frames; [done| |].
      - intros k e Hin. by destruct (Hok_run k e Hin) as (_ & ? & ?).
      - assert (length run ≤ length (frames run))%nat; [|lia]. apply frames_length.
        intros k e Hin. apply round_trips_encodable. by destruct (Hok_run k e Hin) as (_ & ? & _). }
    assert (Hgd_ok : timestamps_ok gd).
    { intros k e Hk. apply (ranges_elem_of gd run k e Hr_run) in Hk.
      by destruct (Hok_run k e Hk). }
    pose proof (timestamps_ok_comparable _ _ Hg Hgd_ok) as Hcmp.
    destruct (mergeDelta_lookup st gd (visit gd) (Hvisit gd) Hcmp)
      as (st1 & delta & Hd & Hm & _).
    destruct (Merge_lookup st gd (visit gd) (Hvisit gd) Hcmp) as (st1' & Hm1 & Hl1).
    rewrite Hm in Hm1. injection Hm1 as <-.
    destruct (IH st1 Hvisit Hnd_rest) as (st' & Hdel & Hl).
    { intros k e Hin. apply Hok, elem_of_app. by right. }
    { by apply (Merge_timestamps_ok st gd). }
    exists st'. split.
    + cbn [map deliver]. unfold OnGossipBroadcast. rewrite Hdec, Hd. simpl. exact Hdel.
    + intros k. cbn [concat]. rewrite Hl, Hl1, list_to_map_app, lookup_union.
      rewrite <- (ranges_list_to_map gd run Hr_run).
      destruct (list_to_map (concat runs) !! k) as [e|] eqn:Hrest.
      * assert (list_to_map run !! k = None) as ->.
        { apply not_elem_of_list_to_map_1. intros Hin. apply (Hdisj k Hin).
          apply elem_of_list_to_map_2 in Hrest. apply list_elem_of_fmap. by exists (k, e). }
        done.
      * by destruct (list_to_map run !! k).
Qed.

(** X15: a full exchange. Let the entries of the log and of a peer's
    state all carry a timestamp that validates, and let the peer's entries
    be stored under their own keys and be decoded back by the codec. When
    the blocks that [Encode] cuts the peer's state into are delivered one
    after the other to [OnGossipBroadcast], every delivery returns without
    error and the log ends with the merge of the peer's state into its
    own. (A log entry without timestamp can make a delivery panic.) *)
Theorem delivered_blocks_merge visit st other order :
  (∀ gd, ranges gd (visit gd)) →
  ranges other order → keyed_by_entry other →
  (∀ k e, other !! k = Some e → round_trips e) →
  timestamps_ok st → timestamps_ok other →
  ∃ blocks st', Encode order = Returns blocks ∧ Merge st order = Returns st' ∧
    deliver visit st blocks = Some st'.
Proof.
  intros Hvisit Hr Hkey Hrt Hg Ho.
  destruct (Encode_returns_runs order (state_entries_encodable other order Hr Hrt))
    as (runs & HE & Hcat & _).
  destruct (Merge_lookup st other order Hr (timestamps_ok_comparable _ _ Hg Ho))
    as (st' & Hm & Hl).
  destruct (deliver_runs visit runs st Hvisit) as (st2 & Hdel & Hl2).
  { rewrite Hcat. by eapply ranges_NoDup. }
  { rewrite Hcat. intros k e Hin.
    destruct (state_entries_decodable other order Hr Hkey Hrt k e Hin) as [? ?].
    split; [|done]. apply (Ho k). by apply (ranges_elem_of other order). }
  { done. }
  exists (map frames runs), st'. split; [done|]. split; [done|].
  rewrite Hdel. f_equal. apply map_eq. intros k.
  by rewrite Hl, Hl2, Hcat, (ranges_list_to_map other order Hr).
Qed.
End gossip_properties.

Section Encode_further.
Context `{MeshEntryCodec}.
Implicit Types pre post todo : list (string * pb.MeshEntry).

(** The loop over a list in two parts. *)
Lemma Encode_loop_app pre : ∀ post buf res n,
  Encode_loop buf res n (pre ++ post) =
    '(buf', res', n') ← Encode_loop buf res n pre; Encode_loop buf' res' n' post.
Proof.
  induction pre as [|[k e] pre IH]; intros post buf res n; [done|].
  change (((k, e) :: pre) ++ post) with ((k, e) :: pre ++ post). cbn [Encode_loop].
  destruct (WriteDelimited buf e) as [[[buf' m] [err|]]|p]; simpl; [done| |done].
  destruct (maxSize <? n + m); apply IH.
Qed.

(** Once the running count is beyond [maxSize], every entry is cut into a
    block of its own. *)
Lemma Encode_loop_beyond todo : ∀ res n,
  (∀ k e, (k, e) ∈ todo → encodable e) → maxSize < n →
  Encode_loop [] res n todo =
    Returns ([], res ++ map (λ kv, frame kv.2) todo, n + len (frames todo)).
Proof.
  induction todo as [|[k e] todo IH]; intros res n Henc Hn.
  - simpl. rewrite app_nil_r. change (len (frames [])) with 0. by rewrite Z.add_0_r.
  - pose proof (frame_nonempty e (Henc k e ltac:(left))) as Hne.
    rewrite frames_cons, len_app. cbn [Encode_loop].
    rewrite WriteDelimited_encodable by (apply (Henc k); left). simpl.
    destruct (Z.ltb_spec maxSize (n + len (frame e))) as [_|?]; [|lia].
    rewrite IH; [|intros k' e' Hin; apply (Henc k'); by right|lia].
    rewrite <- app_assoc. simpl. by rewrite Z.add_assoc.
Qed.

(** X19: the running byte count of [Encode] is never set back. Once the
    entries visited take more than 1 MiB in all, every entry visited after
    them is encoded as a block of its own, however small it is. *)
Theorem Encode_after_first_cut pre post :
  (∀ k e, (k, e) ∈ pre ++ post → encodable e) → maxSize < len (frames pre) →
  ∃ blocks, Encode (pre ++ post) = Returns (blocks ++ map (λ kv, frame kv.2) post) ∧
            concat blocks = frames pre.
Proof.
  intros Henc Hbig.
  assert (Henc_pre : ∀ k e, (k, e) ∈ pre → encodable e).
  { intros k e Hin. apply (Henc k), elem_of_app. by left. }
  assert (Henc_post : ∀ k e, (k, e) ∈ post → encodable e).
  { intros k e Hin. apply (Henc k), elem_of_app. by right. }
  destruct (Encode_loop_runs pre [] [] 0 Henc_pre)
    as (runs & last & Heq & Hloop & _ & Hinv & _); [left; by unfold maxSize|].
  simpl in Heq. change (frames []) with (@nil Z) in Hloop. rewrite Z.add_0_l in Hinv, Hloop.
  destruct Hinv as [[? _]|[_ ->]]; [lia|]. rewrite app_nil_r in Heq.
  change (frames []) with (@nil Z) in Hloop.
  exists (map frames runs). split.
  - unfold Encode. rewrite Encode_loop_app, Hloop. simpl.
    rewrite Encode_loop_beyond by done. simpl. done.
  - by rewrite frames_concat, <- Heq.
Qed.
End Encode_further.

Section Encode_large_entries.
Context `{MeshEntryCodec}.

(** A first entry that is larger than [maxSize] alone: every entry is
    encoded as a block of its own. *)
Lemma Encode_first_entry_beyond k e rest :
  (∀ k' e', (k', e') ∈ (k, e) :: rest → encodable e') → maxSize < len (frame e) →
  Encode ((k, e) :: rest) = Returns (frame e :: map (λ kv, frame kv.2) rest).
Proof.
  intros Henc Hbig. unfold Encode. cbn [Encode_loop].
  rewrite WriteDelimited_encodable by (apply (Henc k); left). simpl.
  destruct (Z.ltb_spec maxSize (0 + len (frame e))) as [Hcut|?]; [|lia].
  rewrite Encode_loop_beyond; [done| |done].
  intros k' e' Hin. apply (Henc k'). by right.
Qed.
End Encode_large_entries.

(** * The composite key on printed receivers *)

Section scan_properties.

Lemma scan_app l1 : ∀ q l2,
  scan q (l1 ++ l2) = match scan q l1 with Some q' => scan q' l2 | None => None end.
Proof.
  induction l1 as [|c l1 IH]; intros q l2; [done|]. simpl.
  destruct (scan_step q c); [apply IH | done].
Qed.

(** The classes of characters exclude one another. *)
Lemma character_classes c :
  (is_form_start c = true →
     is_quote c = false ∧ is_backslash c = false ∧ is_digit c = false) ∧
  (is_digit c = true → is_quote c = false ∧ is_backslash c = false) ∧
  (is_quote c = true → is_backslash c = false) ∧
  (is_separator c = true →
     is_quote c = false ∧ is_backslash c = false ∧ is_digit c = false ∧
     is_form_start c = false).
Proof.
  unfold is_form_start, is_digit, is_quote, is_backslash, is_separator.
  generalize (N_of_ascii c). intros n.
  repeat match goal with
         | |- context [(?a =? ?b)%N] => destruct (N.eqb_spec a b)
         | |- context [(?a <=? ?b)%N] => destruct (N.leb_spec a b)
         end; simpl; repeat split; intros; try done; lia.
Qed.

(** After a separator the scan is just after it, outside a value, or
    inside a value. *)
Lemma scan_step_separator q c q' :
  is_separator c = true → scan_step q c = Some q' →
  (q = Outside ∧ q' = AfterSeparator) ∨ q' = Inside.
Proof.
  intros Hc. destruct (character_classes c) as (_ & _ & _ & Hsep).
  destruct (Hsep Hc) as (Hq & Hb & Hd & Hf).
  destruct q; unfold scan_step; rewrite ?Hq, ?Hb, ?Hd, ?Hf, ?Hc; simpl;
    intros; simplify_eq; auto.
Qed.

(** Two scans of the same characters, one that starts outside a value and
    one that starts inside, are never both outside a value. *)
Lemma scan_step_opposite c a b a' b' :
  outside_value a = true → b = Inside →
  scan_step a c = Some a' → scan_step b c = Some b' →
  (outside_value a' = true ∧ b' = Inside) ∨ (a' = Inside ∧ outside_value b' = true).
Proof.
  intros Ha -> Hsa Hsb.
  destruct (character_classes c) as (Hf & Hd & Hq & Hs).
  destruct a; try done; unfold scan_step in Hsa, Hsb;
    destruct (is_quote c), (is_backslash c), (is_separator c), (is_digit c),
             (is_form_start c);
    simpl in *; try discriminate;
    injection Hsa as <-; injection Hsb as <-; simpl; auto;
    exfalso; intuition discriminate.
Qed.

Lemma scan_opposite l : ∀ a b a' b',
  (outside_value a = true ∧ b = Inside) ∨ (a = Inside ∧ outside_value b = true) →
  scan a l = Some a' → scan b l = Some b' →
  (outside_value a' = true ∧ b' = Inside) ∨ (a' = Inside ∧ outside_value b' = true).
Proof.
  induction l as [|c l IH]; intros a b a' b' Hopp Ha Hb.
  - simpl in *. by simplify_eq.
  - simpl in Ha, Hb.
    destruct (scan_step a c) as [a1|] eqn:Ha1; [|done].
    destruct (scan_step b c) as [b1|] eqn:Hb1; [|done].
    apply (IH a1 b1); [|done..].
    destruct Hopp as [[Hout ->]|[-> Hout]].
    + by apply (scan_step_opposite c a Inside).
    + destruct (scan_step_opposite c b Inside b1 a1) as [[? ?]|[? ?]]; auto.
Qed.

(** No canonical form starts right after a separator of another one. *)
Lemma no_form_after_separator (p s : list ascii) (q q' : scan_state) :
  scan AtStart (p ++ ":"%char :: s) = Some q →
  outside_value q = true → q ≠ AfterSeparator →
  scan AtStart s = Some q' →
  outside_value q' = true →
  False.
Proof.
  intros Hps Hq Hqn Hs Hq'. rewrite scan_app in Hps.
  destruct (scan AtStart p) as [q1|]; [|done]. simpl in Hps.
  destruct (scan_step q1 ":") as [q2|] eqn:Hstep; [|done].
  destruct (scan_step_separator q1 ":"%char q2 eq_refl Hstep) as [[-> ->]| ->].
  - destruct s as [|c s].
    + simpl in Hps. by injection Hps as <-.
    + simpl in Hs, Hps. destruct (is_form_start c) eqn:Hc; [|done].
      destruct (character_classes c) as (Hf & _). destruct (Hf Hc) as (Hcq & _ & Hcd).
      unfold scan_step in Hps. by rewrite Hcq, Hcd in Hps.
  - destruct (scan_opposite s AtStart Inside q' q) as [[_ ->]|[-> _]];
      [by left|done|done|done|done].
Qed.
End scan_properties.

Section stateKey_on_printed_forms.
Context `{ReceiverSchema}.

Lemma quoted_form_scan s :
  quoted_form s →
  ∃ q, scan AtStart (list_ascii_of_string s) = Some q ∧ outside_value q = true ∧
       q ≠ AfterSeparator.
Proof. intros [Hs|Hs]; eexists; by split. Qed.

(** Two keys made of canonical forms of the printed shape are equal only
    when their group keys are and their canonical forms are. *)
Lemma stateKey_eq_quoted gk1 r1 gk2 r2 :
  quoted_form (Receiver_String r1) → quoted_form (Receiver_String r2) →
  stateKey gk1 r1 = stateKey gk2 r2 →
  gk1 = gk2 ∧ Receiver_String r1 = Receiver_String r2.
Proof.
  unfold stateKey. intros H1 H2 Heq.
  destruct (quoted_form_scan _ H1) as (q1 & Hs1 & Ho1 & Hn1).
  destruct (quoted_form_scan _ H2) as (q2 & Hs2 & Ho2 & Hn2).
  apply (f_equal list_ascii_of_string) in Heq.
  rewrite !list_ascii_of_string_app in Heq. simpl in Heq.
  apply app_eq_app in Heq as [m [[Hk Hm]|[Hk Hm]]].
  - destruct m as [|c m].
    + rewrite app_nil_r in Hk. simpl in Hm. injection Hm as Hm.
      by split; apply list_ascii_of_string_inj.
    + exfalso. simpl in Hm. injection Hm as <- Hm.
      rewrite Hm in Hs2.
      by apply (no_form_after_separator m (list_ascii_of_string (Receiver_String r1)) q2 q1).
  - destruct m as [|c m].
    + rewrite app_nil_r in Hk. simpl in Hm. injection Hm as Hm.
      by split; apply list_ascii_of_string_inj.
    + exfalso. simpl in Hm. injection Hm as <- Hm.
      rewrite Hm in Hs1.
      by apply (no_form_after_separator m (list_ascii_of_string (Receiver_String r2)) q1 q2).
Qed.

(** C9 (as amended): the composite key (the group key, the separator [:]
    and the canonical form of the receiver) is injective on canonical
    forms of the shape that the text marshaller prints, although the
    separator occurs in them: for every two pairs that differ in the group
    key or in the canonical form of the receiver, the composite keys are
    different strings. *)
Theorem stateKey_injective_on_printed_forms gk1 r1 gk2 r2 :
  quoted_form (Receiver_String r1) → quoted_form (Receiver_String r2) →
  gk1 ≠ gk2 ∨ Receiver_String r1 ≠ Receiver_String r2 →
  stateKey gk1 r1 ≠ stateKey gk2 r2.
Proof.
  intros H1 H2 Hdiff Heq.
  destruct (stateKey_eq_quoted gk1 r1 gk2 r2 H1 H2 Heq) as [Hgk Hr].
  by destruct Hdiff.
Qed.
End stateKey_on_printed_forms.

(** * The canonical forms that the text marshaller prints *)

Section printed_forms.

Lemma scan_escape_byte c rest :
  scan Inside (escape_byte c ++ rest) = scan Inside rest.
Proof. by destruct c as [[] [] [] [] [] [] [] []]. Qed.

Lemma scan_escaped l : ∀ rest,
  scan Inside (flat_map escape_byte l ++ rest) = scan Inside rest.
Proof.
  induction l as [|c l IH]; intros rest; [done|].
  cbn [flat_map]. by rewrite <- app_assoc, scan_escape_byte.
Qed.

Lemma scan_writeString v rest :
  scan AfterSeparator (writeString v ++ rest) = scan Outside rest.
Proof.
  unfold writeString. cbn [app scan]. change (scan_step AfterSeparator double_quote)
    with (Some Inside). by rewrite <- app_assoc, scan_escaped.
Qed.

Lemma scan_field_name name q rest :
  field_name name → between_fields q →
  scan q (list_ascii_of_string name ++ ":"%char :: rest) = scan AfterSeparator rest.
Proof.
  intros [Hs Ho] [-> | ->]; by rewrite scan_app, ?Hs, ?Ho.
Qed.

Lemma scan_string_field name v q :
  field_name name → between_fields q →
  ∃ q', between_fields q' ∧
        ∀ rest, scan q (string_field name v ++ rest) = scan q' rest.
Proof.
  intros Hname Hq. destruct v as [|c v].
  - by exists q.
  - exists Outside. split; [by right|]. intros rest. unfold string_field.
    rewrite <- app_assoc. cbn [app]. rewrite scan_field_name by done.
    by rewrite <- app_assoc, scan_writeString.
Qed.

Lemma scan_digits d : ∀ rest,
  scan Outside (list_ascii_of_string (NilEmpty.string_of_uint d) ++ rest) =
  scan Outside rest.
Proof. induction d; intros rest; [done|apply IHd..]. Qed.

Lemma scan_number d rest :
  scan AfterSeparator (list_ascii_of_string (NilZero.string_of_uint d) ++ rest) =
  scan Outside rest.
Proof. destruct d; [done|apply scan_digits..]. Qed.

Lemma scan_uint_field name n q :
  field_name name → between_fields q →
  ∃ q', between_fields q' ∧
        ∀ rest, scan q (uint_field name n ++ rest) = scan q' rest.
Proof.
  intros Hname Hq. unfold uint_field. destruct (n =? 0)%N.
  - by exists q.
  - exists Outside. split; [by right|]. intros rest.
    rewrite <- app_assoc. cbn [app]. rewrite scan_field_name by done.
    by rewrite <- app_assoc, scan_number.
Qed.

(** Every receiver, also the missing one, prints as a canonical form of
    the scanned shape. *)
Lemma CompactTextString_quoted_form r : quoted_form (CompactTextString r).
Proof.
  destruct r as [r|]; [|by right]. unfold quoted_form, CompactTextString.
  rewrite list_ascii_of_string_of_list_ascii.
  destruct (scan_string_field "group_name" (group_name r) AtStart)
    as (q1 & Hq1 & H1); [done|by left|].
  destruct (scan_string_field "integration" (integration r) q1)
    as (q2 & Hq2 & H2); [done|done|].
  destruct (scan_uint_field "idx" (idx r) q2) as (q3 & Hq3 & H3); [done|done|].
  rewrite H1, H2. rewrite <- (app_nil_r (uint_field _ _)), H3. simpl.
  destruct Hq3 as [-> | ->]; auto.
Qed.

(** On printed receivers the composite key is injective with no condition
    on the receivers. *)
Lemma stateKey_injective_on_text_receivers gk1 r1 gk2 r2 :
  @stateKey text_receivers gk1 r1 = @stateKey text_receivers gk2 r2 →
  gk1 = gk2 ∧ CompactTextString r1 = CompactTextString r2.
Proof.
  apply (@stateKey_eq_quoted text_receivers); apply CompactTextString_quoted_form.
Qed.
End printed_forms.

(** * The properties on sample states *)

#[local] Existing Instance named_receivers.

Lemma key_A_neq_key_B : key_A ≠ key_B.
Proof. by vm_compute. Qed.

Lemma ranges_singleton (k : string) (e : pb.MeshEntry) : ranges {[k := e]} [(k, e)].
Proof. unfold ranges. by rewrite map_to_list_singleton. Qed.

Lemma ranges_pair (k1 k2 : string) (e1 e2 : pb.MeshEntry) :
  k1 ≠ k2 → ranges (<[k1 := e1]> {[k2 := e2]}) [(k1, e1); (k2, e2)].
Proof.
  intros Hne. unfold ranges.
  rewrite map_to_list_insert by (by apply lookup_singleton_ne).
  by rewrite map_to_list_singleton.
Qed.

Lemma timestamps_ok_singleton (k : string) (e : pb.MeshEntry) t :
  entry_time e = Some t → timestamps_ok {[k := e]}.
Proof. intros Ht k' e' [_ <-]%lookup_singleton_Some. by exists t. Qed.

(** Two replicas logged the same key at 5 s and at 7 s: merging the second
    into the first keeps the entry of 7 s. *)
Lemma Merge_last_writer_wins_sample :
  ∃ gd', Merge {[key_A := entry_of team_email_A 5 3605]}
               [(key_A, entry_of team_email_A 7 3607)] = Returns gd' ∧
         lww_merge_of {[key_A := entry_of team_email_A 5 3605]}
                      {[key_A := entry_of team_email_A 7 3607]} gd'.
Proof.
  apply (Merge_last_writer_wins _ {[key_A := entry_of team_email_A 7 3607]}).
  - apply ranges_singleton.
  - intros k prev e [_ <-]%lookup_singleton_Some [_ <-]%lookup_singleton_Some.
    split; by eexists.
Defined.

(** C1 as stated fails: a state that holds an entry without a timestamp
    (as [mergeDelta] stores it when a peer sends one for a new key) makes
    [Merge] panic on the next entry for that key. *)
Lemma Merge_panics_on_missing_timestamp :
  ranges {[key_A := entry_of team_email_A 7 3607]}
         [(key_A, entry_of team_email_A 7 3607)] ∧
  Merge {[key_A := entry_without_timestamp]} [(key_A, entry_of team_email_A 7 3607)]
    = Panics (panicError (errorString "timestamp: nil Timestamp")) ∧
  ¬ ∃ gd', Merge {[key_A := entry_without_timestamp]}
                 [(key_A, entry_of team_email_A 7 3607)] = Returns gd' ∧
           lww_merge_of {[key_A := entry_without_timestamp]}
                        {[key_A := entry_of team_email_A 7 3607]} gd'.
Proof.
  split; [apply ranges_singleton|].
  assert (Merge {[key_A := entry_without_timestamp]} [(key_A, entry_of team_email_A 7 3607)]
          = Panics (panicError (errorString "timestamp: nil Timestamp"))) as Hp.
  { cbn [Merge]. unfold Merge_iter. by rewrite lookup_singleton_eq. }
  split; [done|]. intros (gd' & Hm & _). by rewrite Hp in Hm.
Qed.

(** An entry logged at 100 s survives an append at 50 s unchanged. *)
Lemma log_keeps_newer_or_appends_sample :
  log_claim (time.Unix 50 0) 3600000000000
    {[key_A := entry_of team_email_A 100 3700]} team_email_A "k" "h2" false.
Proof.
  apply (log_keeps_newer_or_appends (time.Unix 50 0) 3600000000000
           {[key_A := entry_of team_email_A 100 3700]} team_email_A "k" "h2" false).
  - intros prev [_ <-]%lookup_singleton_Some. by eexists.
  - unfold representable. by vm_compute.
  - unfold representable. by vm_compute.
Defined.

Lemma log_keeps_entry_of_100_at_50 :
  log (time.Unix 50 0) 3600000000000 {[key_A := entry_of team_email_A 100 3700]}
      team_email_A "k" "h2" false
  = Returns ({[key_A := entry_of team_email_A 100 3700]}, None).
Proof.
  unfold log. change (stateKey "k" team_email_A) with key_A.
  by rewrite lookup_singleton_eq.
Qed.

(** C2 as stated fails: the state holds for the key an entry without a
    timestamp, so none strictly after [now]; the append returns the
    validation error and stores nothing. *)
Lemma log_fails_on_missing_timestamp :
  log (time.Unix 50 0) 3600000000000 {[key_A := entry_without_timestamp]}
      team_email_A "k" "h2" false
  = Returns ({[key_A := entry_without_timestamp]},
             Some (errorString "timestamp: nil Timestamp")) ∧
  ¬ log_claim (time.Unix 50 0) 3600000000000
      {[key_A := entry_without_timestamp]} team_email_A "k" "h2" false.
Proof.
  assert (log (time.Unix 50 0) 3600000000000 {[key_A := entry_without_timestamp]}
              team_email_A "k" "h2" false
          = Returns ({[key_A := entry_without_timestamp]},
                     Some (errorString "timestamp: nil Timestamp"))) as Hlog.
  { unfold log. change (stateKey "k" team_email_A) with key_A.
    by rewrite lookup_singleton_eq. }
  split; [done|]. intros [_ Happ]. destruct Happ as (st' & Hst' & _).
  - intros (prev & t & [_ <-]%lookup_singleton_Some & Ht & _). discriminate Ht.
  - by rewrite Hlog in Hst'.
Qed.

(** The same happens when the clock is beyond what a timestamp can hold. *)
Lemma log_fails_in_year_10000 :
  ¬ log_claim (time.Unix 253402300800 0) 0 ∅ team_email_A "k" "h2" false.
Proof.
  intros [_ Happ]. destruct Happ as (st' & Hst' & _).
  - intros (prev & t & Hk & _). by rewrite lookup_empty in Hk.
  - unfold log in Hst'. rewrite lookup_empty in Hst'. by vm_compute in Hst'.
Qed.

(** A replica that holds the entry of 5 s receives the entry of 7 s. *)
Lemma mergeDelta_exact_sample :
  ∃ gd' delta,
    mergeDelta {[key_A := entry_of team_email_A 5 3605]}
               [(key_A, entry_of team_email_A 7 3607)] = Returns (gd', delta) ∧
    Merge {[key_A := entry_of team_email_A 5 3605]}
          [(key_A, entry_of team_email_A 7 3607)] = Returns gd' ∧
    (∀ k e, delta !! k = Some e ↔
       ({[key_A := entry_of team_email_A 7 3607]} : gmap string pb.MeshEntry) !! k = Some e ∧
       (({[key_A := entry_of team_email_A 5 3605]} : gmap string pb.MeshEntry) !! k = None ∨
        ∃ prev pts ets,
          ({[key_A := entry_of team_email_A 5 3605]} : gmap string pb.MeshEntry) !! k
            = Some prev ∧
          entry_time prev = Some pts ∧ entry_time e = Some ets ∧ pts < ets)) ∧
    (∀ dorder, ranges delta dorder →
       Merge {[key_A := entry_of team_email_A 5 3605]} dorder = Returns gd') ∧
    (delta = ∅ ↔ gd' = {[key_A := entry_of team_email_A 5 3605]}).
Proof.
  apply (mergeDelta_exact {[key_A := entry_of team_email_A 5 3605]}
           {[key_A := entry_of team_email_A 7 3607]}
           [(key_A, entry_of team_email_A 7 3607)]).
  - apply ranges_singleton.
  - by eapply timestamps_ok_singleton.
  - by eapply timestamps_ok_singleton.
Defined.

(** Three replicas: the key of receiver A logged at 5 s and at 7 s, the
    key of receiver B logged at 6 s. *)
Lemma Merge_commutative_associative_idempotent_sample :
  let a : gmap string pb.MeshEntry := {[key_A := entry_of team_email_A 5 3605]} in
  let b : gmap string pb.MeshEntry := {[key_A := entry_of team_email_A 7 3607]} in
  let c : gmap string pb.MeshEntry := {[key_B := entry_of team_email_B 6 3606]} in
  let oa := [(key_A, entry_of team_email_A 5 3605)] in
  let ob := [(key_A, entry_of team_email_A 7 3607)] in
  let oc := [(key_B, entry_of team_email_B 6 3606)] in
  (∃ m, Merge a ob = Returns m ∧ Merge b oa = Returns m) ∧
  (∃ ab bc m,
      Merge a ob = Returns ab ∧ Merge ab oc = Returns m ∧
      Merge b oc = Returns bc ∧
      ∀ obc, ranges bc obc → Merge a obc = Returns m) ∧
  Merge a oa = Returns a.
Proof.
  intros a b c oa ob oc.
  apply (Merge_commutative_associative_idempotent a b c oa ob oc).
  - by eapply timestamps_ok_singleton.
  - by eapply timestamps_ok_singleton.
  - by eapply timestamps_ok_singleton.
  - intros k ea eb [_ <-]%lookup_singleton_Some [_ <-]%lookup_singleton_Some Ht.
    by vm_compute in Ht.
  - apply ranges_singleton.
  - apply ranges_singleton.
  - apply ranges_singleton.
Defined.

(** Retention of one second: an entry appended at 1000 s is deleted by
    the collection at 1001 s. *)
Lemma GC_deletes_expired_sample :
  let st : gmap string pb.MeshEntry := {[key_A := entry_of team_email_A 1000 1001]} in
  let order := [(key_A, entry_of team_email_A 1000 1001)] in
  let now := time.Unix 1001 0 in
  (∃ st' n, GC now st order = (st', n, None) ∧
     (∀ k, st' !! k = match st !! k with
                      | Some e => if expired now e then None else Some e
                      | None => None
                      end) ∧
     n = expired_count now order ∧
     Z.of_nat (size st') = Z.of_nat (size st) - n ∧
     (∀ k e, st' !! k = Some e → ∃ t, expiry_time e = Some t ∧ now < t)) ∧
  (∀ r gkey ghash resolved,
     representable now →
     (∀ prev, st !! stateKey gkey r = Some prev → is_Some (entry_time prev)) →
     ¬ has_newer_entry st (stateKey gkey r) now →
     ∃ st1, log now 0 st r gkey ghash resolved = Returns (st1, None) ∧
       appended now 0 st r gkey ghash resolved st1 ∧
       ∀ order1, ranges st1 order1 →
         ∃ st2 n2, GC now st1 order1 = (st2, n2, None) ∧
                   st2 !! stateKey gkey r = None).
Proof.
  intros st order now. apply (GC_deletes_expired now st order).
  - apply ranges_singleton.
  - intros k e [_ <-]%lookup_singleton_Some. by eexists.
Defined.

Lemma GC_at_1000_and_1001 :
  GC (time.Unix 1000 0) {[key_A := entry_of team_email_A 1000 1001]}
     [(key_A, entry_of team_email_A 1000 1001)]
    = ({[key_A := entry_of team_email_A 1000 1001]}, 0, None) ∧
  GC (time.Unix 1001 0) {[key_A := entry_of team_email_A 1000 1001]}
     [(key_A, entry_of team_email_A 1000 1001)]
    = (∅, 1, None).
Proof.
  split; unfold GC; cbn [GC_loop]; vm_compute ptypes.Timestamp; simpl negb; cbv iota;
    [done|]. by rewrite delete_singleton_eq.
Qed.

(** A query by receiver and group key. *)
Lemma Query_by_composite_key_sample :
  let st : gmap string pb.MeshEntry := {[key_A := entry_of team_email_A 1000 4600]} in
  let params := [QReceiver team_email_A; QGroupKey (Some "k")] in
  let q := mkQuery team_email_A (Some "k") in
  ErrNotFound ≠ errNoQueryParams ∧
  (recv q = None ∨ groupKey q = None →
     Query st params = ([], Some errNoQueryParams)) ∧
  (∀ r gk, recv q = Some r → groupKey q = Some gk →
     match st !! stateKey gk (Some r) with
     | Some le => Query st params = ([pb.MeshEntry_Entry le], None)
     | None => Query st params = ([], Some ErrNotFound)
     end).
Proof.
  intros st params q. apply (Query_by_composite_key st params q). reflexivity.
Defined.

Lemma Query_sample_results :
  let st : gmap string pb.MeshEntry := {[key_A := entry_of team_email_A 1000 4600]} in
  Query st [QReceiver team_email_A; QGroupKey (Some "k")]
    = ([pb.MeshEntry_Entry (entry_of team_email_A 1000 4600)], None) ∧
  Query st [QReceiver team_email_B; QGroupKey (Some "k")] = ([], Some ErrNotFound) ∧
  Query st [QReceiver team_email_A] = ([], Some errNoQueryParams) ∧
  Query st [QGroupKey (Some "k")] = ([], Some errNoQueryParams).
Proof.
  intros st. repeat split; by vm_compute.
Qed.

(** Two receivers of one group have different keys. *)
Lemma stateKey_injective_sample :
  stateKey "k" team_email_A ≠ stateKey "k" team_email_B.
Proof.
  apply (stateKey_injective "k" team_email_A "k" team_email_B).
  - unfold separator_free. by apply (bool_decide_unpack _).
  - unfold separator_free. by apply (bool_decide_unpack _).
  - right. by vm_compute.
Defined.

(** Where the separator occurs in a canonical form, two different pairs
    can share a key. *)
Lemma stateKey_collision_with_separator :
  stateKey "a" (Some "b:c") = stateKey "a:b" (Some "c").
Proof. reflexivity. Qed.

(** The separator occurs in the canonical form of a receiver as it is
    printed, once after every field name, and so twice in the key. *)
Lemma separator_occurs_in_printed_receiver :
  list_ascii_of_string (CompactTextString team_email) =
    list_ascii_of_string "group_name:" ++ double_quote ::
    list_ascii_of_string "team" ++ double_quote ::
    list_ascii_of_string " integration:" ++ double_quote ::
    list_ascii_of_string "email" ++ [double_quote; " "%char] ∧
  ¬ separator_free (@Receiver_String text_receivers team_email) ∧
  @stateKey text_receivers "k" team_email = "k:" +:+ CompactTextString team_email.
Proof.
  split; [by vm_compute|]. split; [|done].
  unfold separator_free. intros Hfree. apply Hfree.
  by apply (bool_decide_unpack _).
Qed.

(** Two printed receivers, the group key of the first with a separator
    in it, have different keys. *)
Lemma stateKey_injective_on_printed_forms_sample :
  @stateKey text_receivers "k:1" team_email ≠ @stateKey text_receivers "k" team_webhook_1.
Proof.
  apply (@stateKey_injective_on_printed_forms text_receivers
           "k:1" team_email "k" team_webhook_1).
  - right. by vm_compute.
  - right. by vm_compute.
  - left. done.
Defined.

(** The collection meets an entry without expiry after an expired one. *)
Lemma GC_partial_on_malformed_expiry_sample :
  let st : gmap string pb.MeshEntry :=
    <[key_A := entry_of team_email_A 800 900]> {[key_B := entry_without_expiry]} in
  let pre := [(key_A, entry_of team_email_A 800 900)] in
  let order := pre ++ (key_B, entry_without_expiry) :: [] in
  let now := time.Unix 1000 0 in
  let err := errorString "timestamp: nil Timestamp" in
  ∃ st' n, GC now st order = (st', n, Some err) ∧
    (∀ k' e', (k', e') ∈ pre → expired now e' = true → st' !! k' = None) ∧
    (∀ k' e', st !! k' = Some e' →
       ((k', e') ∈ pre → expired now e' = false) → st' !! k' = Some e') ∧
    n = expired_count now pre ∧
    Z.of_nat (size st') = Z.of_nat (size st) - n.
Proof.
  intros st pre order now err.
  apply (GC_partial_on_malformed_expiry now st order pre key_B entry_without_expiry [] err).
  - apply ranges_pair, key_A_neq_key_B.
  - reflexivity.
  - intros k' e' [= -> ->]%list_elem_of_singleton. by eexists.
  - reflexivity.
Defined.


Lemma Encode_sample_block :
  Encode (H0 := cell_codec) [(key_A, entry_of team_email_A 1000 4600)] =
  Returns [[55; 1; 1; 107; 1; 12; 116; 101; 97; 109; 47; 101; 109; 97; 105; 108; 47; 65;
            2; 104; 49; 0; 1; 232; 3; 0; 0; 0; 0; 0; 0; 0; 0; 0; 0; 0; 0; 0; 0;
            1; 248; 17; 0; 0; 0; 0; 0; 0; 0; 0; 0; 0; 0; 0; 0; 0]].
Proof. by vm_compute. Qed.


(** Two entries written to a snapshot and read back, and encoded for
    gossip and decoded. *)
Lemma Snapshot_Encode_round_trip_sample :
  let st : gmap string pb.MeshEntry :=
    <[key_A := entry_of team_email_A 1000 4600]>
      {[key_B := entry_of team_email_B 1001 4601]} in
  let order := [(key_A, entry_of team_email_A 1000 4600);
                (key_B, entry_of team_email_B 1001 4601)] in
  (∃ w n, Snapshot (H0 := cell_codec) order [] = Returns (w, n, None) ∧ n = len w ∧
          loadSnapshot (H0 := cell_codec) ∅ w = Some (Returns (st, None))) ∧
  (∃ blocks, Encode (H0 := cell_codec) order = Returns blocks ∧
             decodeGossipData (H0 := cell_codec) (concat blocks)
               = Some (Returns (st, None))).
Proof.
  intros st order. apply (Snapshot_Encode_round_trip (H0 := cell_codec) st order ∅).
  - apply ranges_pair, key_A_neq_key_B.
  - intros k e [[<- <-]|[_ [<- <-]%lookup_singleton_Some]]%lookup_insert_Some;
      eexists; split; reflexivity.
  - intros k e [[_ <-]|[_ [_ <-]%lookup_singleton_Some]]%lookup_insert_Some;
      eexists; (split; [reflexivity|]); split; by vm_compute.
Defined.

(** ** The further properties on sample states *)


Lemma continued_128 : continued 128.
Proof. unfold continued. by vm_compute. Qed.

Lemma cell_codec_round_trips_samples :
  round_trips (H0 := cell_codec) (entry_of team_email_A 5 3605) ∧
  round_trips (H0 := cell_codec) (entry_of team_email_A 7 3607) ∧
  round_trips (H0 := cell_codec) (entry_of team_email_B 6 3606) ∧
  round_trips (H0 := cell_codec) entry_without_entry.
Proof. repeat split; eexists; (split; [reflexivity|]); split; by vm_compute. Qed.

Lemma keyed_by_entry_singleton_A at_s until_s :
  keyed_by_entry {[key_A := entry_of team_email_A at_s until_s]}.
Proof. intros k e [<- <-]%lookup_singleton_Some. eexists. by split. Qed.

Lemma round_trips_singleton (k : string) (e : pb.MeshEntry) :
  round_trips (H0 := cell_codec) e →
  ∀ k' e', ({[k := e]} : gmap string pb.MeshEntry) !! k' = Some e' →
           round_trips (H0 := cell_codec) e'.
Proof. by intros He k' e' [_ <-]%lookup_singleton_Some. Qed.

(** An append at 200 s over an entry of 100 s. *)
Lemma log_only_moves_forward_sample :
  let st : gmap string pb.MeshEntry := {[key_A := entry_of team_email_A 100 3700]} in
  let st' : gmap string pb.MeshEntry := {[key_A := entry_of team_email_A 200 3800]} in
  (∀ k, k ≠ stateKey "k" team_email_A → st' !! k = st !! k) ∧
  (∀ prev t, st !! stateKey "k" team_email_A = Some prev → entry_time prev = Some t →
     ∃ e' t', st' !! stateKey "k" team_email_A = Some e' ∧ entry_time e' = Some t' ∧ t ≤ t').
Proof.
  intros st st'.
  apply (log_only_moves_forward (time.Unix 200 0) 3600000000000 st team_email_A
           "k" "h1" false st' None).
  by vm_compute.
Defined.


(** Retention of one hour: a collection at 3000 s. *)
Lemma logged_entry_lives_for_retention_sample :
  let st1 : gmap string pb.MeshEntry := {[key_A := entry_of team_email_A 200 3800]} in
  let r : Receiver := "team/email/A" in
  let now := time.Unix 200 0 in
  let retention := 3600000000000 in
  let order := [(key_A, entry_of team_email_A 200 3800)] in
  let T := time.Unix 3000 0 in
  ∃ st2 n, GC T st1 order = (st2, n, None) ∧
    (T < time.Add now retention →
       Query st2 [QReceiver (Some r); QGroupKey (Some "k")]
         = Query st1 [QReceiver (Some r); QGroupKey (Some "k")] ∧
       ∃ e, Query st2 [QReceiver (Some r); QGroupKey (Some "k")] = ([Some e], None)) ∧
    (time.Add now retention ≤ T →
       Query st2 [QReceiver (Some r); QGroupKey (Some "k")] = ([], Some ErrNotFound)).
Proof.
  intros st1 r now retention order T.
  apply (logged_entry_lives_for_retention now retention ∅ r "k" "h1" false st1 order T).
  - by vm_compute.
  - intros (prev & t & Hk & _). by rewrite lookup_empty in Hk.
  - intros k e Hk. by rewrite lookup_empty in Hk.
  - apply ranges_singleton.
Defined.


Lemma Merge_keeps_keys_and_latest_sample :
  let gd : gmap string pb.MeshEntry := {[key_A := entry_of team_email_A 5 3605]} in
  let other : gmap string pb.MeshEntry := {[key_A := entry_of team_email_A 7 3607]} in
  ∃ gd', Merge gd [(key_A, entry_of team_email_A 7 3607)] = Returns gd' ∧
    (∀ k e t, gd !! k = Some e ∨ other !! k = Some e → entry_time e = Some t →
       ∃ e' t', gd' !! k = Some e' ∧ entry_time e' = Some t' ∧ t ≤ t') ∧
    (∀ k e', gd' !! k = Some e' → gd !! k = Some e' ∨ other !! k = Some e').
Proof.
  intros gd other.
  apply (Merge_keeps_keys_and_latest gd other [(key_A, entry_of team_email_A 7 3607)]).
  - apply ranges_singleton.
  - by eapply timestamps_ok_singleton.
  - by eapply timestamps_ok_singleton.
Defined.

Lemma mergeDelta_again_is_empty_sample :
  ∃ gd' delta,
    mergeDelta {[key_A := entry_of team_email_A 5 3605]}
               [(key_A, entry_of team_email_A 7 3607)] = Returns (gd', delta) ∧
    mergeDelta gd' [(key_A, entry_of team_email_A 7 3607)] = Returns (gd', ∅).
Proof.
  apply (mergeDelta_again_is_empty {[key_A := entry_of team_email_A 5 3605]}
           {[key_A := entry_of team_email_A 7 3607]}).
  - apply ranges_singleton.
  - apply ranges_singleton.
  - by eapply timestamps_ok_singleton.
  - by eapply timestamps_ok_singleton.
Defined.

(** An entry without timestamp is merged under a new key; merging the
    same data again panics. *)
Lemma mergeDelta_again_panics_without_timestamp :
  let other : gmap string pb.MeshEntry := {[key_A := entry_without_timestamp]} in
  let order := [(key_A, entry_without_timestamp)] in
  ranges other order ∧
  mergeDelta ∅ order = Returns (other, other) ∧
  mergeDelta other order
    = Panics (panicError (errorString "timestamp: nil Timestamp")).
Proof.
  intros other order. split; [apply ranges_singleton|].
  split; vm_compute; reflexivity.
Qed.

(** Entries without timestamp and without expiry are merged as they are
    when their keys are new. *)
Lemma Merge_disjoint_is_union_sample :
  let gd : gmap string pb.MeshEntry := {[key_A := entry_without_timestamp]} in
  let other : gmap string pb.MeshEntry := {[key_B := entry_without_expiry]} in
  Merge gd [(key_B, entry_without_expiry)] = Returns (other ∪ gd) ∧
  mergeDelta gd [(key_B, entry_without_expiry)] = Returns (other ∪ gd, other).
Proof.
  intros gd other.
  apply (Merge_disjoint_is_union gd other [(key_B, entry_without_expiry)]).
  - apply ranges_singleton.
  - intros k. destruct (decide (k = key_A)) as [->|Hne].
    + right. apply lookup_singleton_ne. intros Heq. by apply key_A_neq_key_B.
    + left. by apply lookup_singleton_ne.
Defined.

(** A snapshot of one entry that ends with two bytes of a header. *)
Lemma cut_header_ends_input_sample :
  let st : gmap string pb.MeshEntry := {[key_A := entry_of team_email_A 5 3605]} in
  let order := [(key_A, entry_of team_email_A 5 3605)] in
  loadSnapshot (H0 := cell_codec) ∅ (frames (H0 := cell_codec) order ++ [128; 128])
    = Some (Returns (st, None)) ∧
  decodeGossipData (H0 := cell_codec) (frames (H0 := cell_codec) order ++ [128; 128])
    = Some (Returns (st, None)).
Proof.
  intros st order.
  apply (cut_header_ends_input (H0 := cell_codec) st order ∅ [128; 128]).
  - apply ranges_singleton.
  - apply keyed_by_entry_singleton_A.
  - apply round_trips_singleton, cell_codec_round_trips_samples.
  - left. split; [repeat constructor; apply continued_128 | simpl; lia].
Defined.

(** A snapshot of one entry, then a header that announces three bytes and
    one byte of them. *)
Lemma cut_message_is_an_error_sample :
  let st : gmap string pb.MeshEntry := {[key_A := entry_of team_email_A 5 3605]} in
  let order := [(key_A, entry_of team_email_A 5 3605)] in
  loadSnapshot (H0 := cell_codec) ∅ (frames (H0 := cell_codec) order ++ [3] ++ [1])
    = Some (Returns (∅, Some io_ErrUnexpectedEOF)) ∧
  decodeGossipData (H0 := cell_codec) (frames (H0 := cell_codec) order ++ [3] ++ [1])
    = Some (Returns (st, Some io_ErrUnexpectedEOF)).
Proof.
  intros st order.
  apply (cut_message_is_an_error (H0 := cell_codec) st order ∅ 3 [3] [1]).
  - apply ranges_singleton.
  - apply keyed_by_entry_singleton_A.
  - apply round_trips_singleton, cell_codec_round_trips_samples.
  - reflexivity.
  - by vm_compute.
Defined.

Lemma overlong_header_is_an_error_sample :
  let st : gmap string pb.MeshEntry := {[key_A := entry_of team_email_A 5 3605]} in
  let order := [(key_A, entry_of team_email_A 5 3605)] in
  loadSnapshot (H0 := cell_codec) ∅
      (frames (H0 := cell_codec) order ++ [128; 128; 128; 128; 128] ++ [1])
    = Some (Returns (∅, Some errInvalidVarint)) ∧
  decodeGossipData (H0 := cell_codec)
      (frames (H0 := cell_codec) order ++ [128; 128; 128; 128; 128] ++ [1])
    = Some (Returns (st, Some errInvalidVarint)).
Proof.
  intros st order.
  apply (overlong_header_is_an_error (H0 := cell_codec) st order ∅
           [128; 128; 128; 128; 128] [1]).
  - apply ranges_singleton.
  - apply keyed_by_entry_singleton_A.
  - apply round_trips_singleton, cell_codec_round_trips_samples.
  - repeat constructor; apply continued_128.
  - reflexivity.
Defined.

(** A message with the entry of 7 s and then the entry of 5 s for the
    same key: the decoded map holds the entry of 5 s. *)
Lemma decodeGossipData_last_frame_wins_sample :
  let es := [entry_of team_email_A 7 3607; entry_of team_email_A 5 3605] in
  ∃ gd, decodeGossipData (H0 := cell_codec) (flat_map (frame (H0 := cell_codec)) es)
          = Some (Returns (gd, None)) ∧
    ∀ k, gd !! k = last (filter (λ e, own_key e = Some k) es).
Proof.
  intros es. apply (decodeGossipData_last_frame_wins (H0 := cell_codec) es).
  intros e [->|[->|Hin]%elem_of_cons]%elem_of_cons.
  - split; [apply cell_codec_round_trips_samples | by eexists].
  - split; [apply cell_codec_round_trips_samples | by eexists].
  - by apply elem_of_nil in Hin.
Defined.

Lemma decodeGossipData_older_entry_overwrites :
  decodeGossipData (H0 := cell_codec)
    (flat_map (frame (H0 := cell_codec))
       [entry_of team_email_A 7 3607; entry_of team_email_A 5 3605])
  = Some (Returns ({[key_A := entry_of team_email_A 5 3605]}, None)).
Proof. by vm_compute. Qed.

Lemma decoding_entryless_message_panics_sample :
  let order := [(key_A, entry_of team_email_A 5 3605)] in
  decodeGossipData (H0 := cell_codec)
      (frames (H0 := cell_codec) order ++ frame (H0 := cell_codec) entry_without_entry ++ [])
    = Some (Panics nilDereference) ∧
  loadSnapshot (H0 := cell_codec) ∅
      (frames (H0 := cell_codec) order ++ frame (H0 := cell_codec) entry_without_entry ++ [])
    = Some (Panics nilDereference).
Proof.
  intros order.
  apply (decoding_entryless_message_panics (H0 := cell_codec)
           {[key_A := entry_of team_email_A 5 3605]} order entry_without_entry [] ∅).
  - apply ranges_singleton.
  - apply keyed_by_entry_singleton_A.
  - apply round_trips_singleton, cell_codec_round_trips_samples.
  - apply cell_codec_round_trips_samples.
  - reflexivity.
Defined.

Lemma Snapshot_stops_at_marshal_error_sample :
  let pre := [(key_A, entry_of team_email_A 5 3605)] in
  Snapshot (H0 := strict_codec) (pre ++ (key_B, entry_without_entry) :: []) []
    = Returns ([] ++ frames (H0 := strict_codec) pre, len (frames (H0 := strict_codec) pre),
               Some (errProto "entry is not set")).
Proof.
  intros pre.
  apply (Snapshot_stops_at_marshal_error (H0 := strict_codec) pre key_B entry_without_entry
           [] (errProto "entry is not set") []).
  - intros k e [= -> ->]%list_elem_of_singleton. eexists. split; [reflexivity|]. by vm_compute.
  - reflexivity.
Defined.

Lemma Encode_panics_at_marshal_error_sample :
  let pre := [(key_A, entry_of team_email_A 5 3605)] in
  Encode (H0 := strict_codec) (pre ++ (key_B, entry_without_entry) :: [])
    = Panics (panicError (errProto "entry is not set")).
Proof.
  intros pre.
  apply (Encode_panics_at_marshal_error (H0 := strict_codec) pre key_B entry_without_entry
           [] (errProto "entry is not set")).
  - intros k e [= -> ->]%list_elem_of_singleton. eexists. split; [reflexivity|]. by vm_compute.
  - reflexivity.
Defined.

Lemma Gossip_copies_state_sample :
  let st : gmap string pb.MeshEntry :=
    <[key_A := entry_of team_email_A 5 3605]> {[key_B := entry_of team_email_B 6 3606]} in
  let order := [(key_A, entry_of team_email_A 5 3605); (key_B, entry_of team_email_B 6 3606)] in
  Gossip order = st ∧ clone order = st.
Proof.
  intros st order. apply (Gossip_copies_state st order).
  apply ranges_pair, key_A_neq_key_B.
Defined.

(** A replica that holds the entry of 5 s receives the state of a peer
    that holds the entry of 7 s. *)
Lemma OnGossip_merges_and_reports_sample :
  let st : gmap string pb.MeshEntry := {[key_A := entry_of team_email_A 5 3605]} in
  let other : gmap string pb.MeshEntry := {[key_A := entry_of team_email_A 7 3607]} in
  let order := [(key_A, entry_of team_email_A 7 3607)] in
  let msg := frames (H0 := cell_codec) order in
  ∃ st' delta,
    Merge st order = Returns st' ∧ mergeDelta st (map_to_list other) = Returns (st', delta) ∧
    OnGossipBroadcast (H0 := cell_codec) map_to_list st msg
      = Some (Returns (st', Some delta, None)) ∧
    (st' = st → OnGossip (H0 := cell_codec) map_to_list st msg
                  = Some (Returns (st, None, None))) ∧
    (st' ≠ st → delta ≠ ∅ ∧
       OnGossip (H0 := cell_codec) map_to_list st msg
         = Some (Returns (st', Some delta, None))).
Proof.
  intros st other order msg.
  apply (OnGossip_merges_and_reports (H0 := cell_codec) map_to_list st other order).
  - intros gd. apply ranges_map_to_list.
  - apply ranges_singleton.
  - apply keyed_by_entry_singleton_A.
  - apply round_trips_singleton, cell_codec_round_trips_samples.
  - by eapply timestamps_ok_singleton.
  - by eapply timestamps_ok_singleton.
Defined.

(** The padded codec decodes what it encodes, and its frames are longer
    than the padding. *)
Lemma wide_codec_round_trips (size : Z) (e : pb.MeshEntry) (buffer : list Z) :
  0 ≤ size →
  Marshal (MeshEntryCodec := cell_codec) e = inr buffer →
  size + len buffer < 2 ^ 35 →
  Unmarshal (MeshEntryCodec := cell_codec) buffer = inr e →
  round_trips (H0 := wide_codec size) e ∧
  size < len (frame (H0 := wide_codec size) e).
Proof.
  intros Hsize Hm Hlen Hu.
  assert (Hpad : len (replicate (Z.to_nat size) 0) = size).
  { unfold len. rewrite length_replicate. lia. }
  assert (HM : Marshal (MeshEntryCodec := wide_codec size) e
               = inr (replicate (Z.to_nat size) 0 ++ buffer)).
  { cbn [Marshal wide_codec]. by rewrite Hm. }
  assert (Hall : len (replicate (Z.to_nat size) 0 ++ buffer) < 2 ^ 35).
  { rewrite len_app, Hpad. lia. }
  split.
  - exists (replicate (Z.to_nat size) 0 ++ buffer). split; [done|]. split; [done|].
    cbn [Unmarshal wide_codec].
    by rewrite drop_app_length' by (by rewrite length_replicate).
  - pose proof (frame_longer_than_message (H0 := wide_codec size) e _ HM Hall) as Hlonger.
    rewrite len_app, Hpad in Hlonger. pose proof (len_nonneg buffer). lia.
Qed.

Lemma wide_codec_samples :
  let eA := entry_of team_email_A 7 3607 in
  let eB := entry_of team_email_B 6 3606 in
  (round_trips (H0 := wide_codec maxSize) eA ∧
   maxSize < len (frame (H0 := wide_codec maxSize) eA)) ∧
  (round_trips (H0 := wide_codec maxSize) eB ∧
   maxSize < len (frame (H0 := wide_codec maxSize) eB)).
Proof.
  intros eA eB.
  split; eapply wide_codec_round_trips; first [done | reflexivity | by vm_compute].
Qed.

(** A peer's state of two entries of more than 1 MiB each is cut into two
    blocks; delivered one after the other to a log that holds an older
    entry for the first key, they leave the merge of the two states. *)
Lemma delivered_blocks_merge_sample :
  let st : gmap string pb.MeshEntry := {[key_A := entry_of team_email_A 5 3605]} in
  let eA := entry_of team_email_A 7 3607 in
  let eB := entry_of team_email_B 6 3606 in
  let order := [(key_A, eA); (key_B, eB)] in
  ∃ blocks st',
    blocks = [frame (H0 := wide_codec maxSize) eA; frame (H0 := wide_codec maxSize) eB] ∧
    st' = <[key_A := eA]> {[key_B := eB]} ∧
    Encode (H0 := wide_codec maxSize) order = Returns blocks ∧
    Merge st order = Returns st' ∧
    deliver (H0 := wide_codec maxSize) map_to_list st blocks = Some st'.
Proof.
  intros st eA eB order.
  destruct wide_codec_samples as [[HrtA HbigA] [HrtB HbigB]].
  destruct (delivered_blocks_merge (H0 := wide_codec maxSize) map_to_list st
              (<[key_A := eA]> {[key_B := eB]}) order)
    as (blocks & st' & HE & HM & HD).
  - intros gd; apply ranges_map_to_list.
  - apply ranges_pair, key_A_neq_key_B.
  - intros k e [[<- <-]|[_ [<- <-]%lookup_singleton_Some]]%lookup_insert_Some;
      eexists; by split.
  - by intros k e [[<- <-]|[_ [<- <-]%lookup_singleton_Some]]%lookup_insert_Some.
  - by eapply timestamps_ok_singleton.
  - by intros k e [[<- <-]|[_ [<- <-]%lookup_singleton_Some]]%lookup_insert_Some.
  - exists blocks, st'.
    split; [|split; [|split; [exact HE|split; [exact HM|exact HD]]]].
    + unfold order in HE.
      rewrite (Encode_first_entry_beyond (H0 := wide_codec maxSize)) in HE.
      * injection HE as <-; reflexivity.
      * intros k e [[= -> ->]|[[= -> ->]|[]%elem_of_nil]%elem_of_cons]%elem_of_cons;
          apply round_trips_encodable; assumption.
      * exact HbigA.
    + assert (Merge st order = Returns (<[key_A := eA]> {[key_B := eB]})) as Hm
        by (by vm_compute).
      rewrite Hm in HM. injection HM as <-. reflexivity.
Defined.

(** A log entry without timestamp makes the delivery of a newer entry for
    its key panic. *)
Lemma delivery_panics_at_entry_without_timestamp :
  let st : gmap string pb.MeshEntry := {[key_A := entry_without_timestamp]} in
  let msg := frame (H0 := cell_codec) (entry_of team_email_A 7 3607) in
  Encode (H0 := cell_codec) [(key_A, entry_of team_email_A 7 3607)] = Returns [msg] ∧
  OnGossipBroadcast (H0 := cell_codec) map_to_list st msg
    = Some (Panics (panicError (errorString "timestamp: nil Timestamp"))) ∧
  deliver (H0 := cell_codec) map_to_list st [msg] = None.
Proof. intros st msg. repeat split; by vm_compute. Qed.

(** Two entries of one byte more than 1 MiB each. *)
Lemma Encode_after_first_cut_sample :
  let pre := [(key_A, entry_of team_email_A 5 3605)] in
  let post := [(key_B, entry_of team_email_B 6 3606)] in
  ∃ blocks,
    Encode (H0 := padded_codec (maxSize + 1)) (pre ++ post)
      = Returns (blocks ++ map (λ kv, frame (H0 := padded_codec (maxSize + 1)) kv.2) post) ∧
    concat blocks = frames (H0 := padded_codec (maxSize + 1)) pre.
Proof.
  intros pre post.
  assert (Hlen : len (replicate (Z.to_nat (maxSize + 1)) 0) = maxSize + 1).
  { unfold len. rewrite length_replicate. apply Z2Nat.id. by unfold maxSize. }
  apply (Encode_after_first_cut (H0 := padded_codec (maxSize + 1)) pre post).
  - intros k e _. eexists. split; [reflexivity|]. rewrite Hlen. by unfold maxSize.
  - unfold pre. rewrite frames_cons, len_app. change (len (frames [])) with 0.
    pose proof (frame_longer_than_message (H0 := padded_codec (maxSize + 1))
                  (entry_of team_email_A 5 3605) _ eq_refl) as Hf.
    rewrite Hlen in Hf. unfold maxSize in *. lia.
Defined.
